(** * The SSE client of [packages/point-of-sale/hooks/sse-api.ts]

    A shallow embedding of the server-sent-event client: the frame decoder
    ([_extractFromSSE]), the connection manager ([RemoteSSESubscribable]) with
    its subscriber registry, and the process-wide holder
    ([useStatefulSubscribableSSE] / [destroyStatefulSubscribableSSE]).

    JavaScript strings are sequences of UTF-16 code units; the built-in string
    operations the decoder relies on ([indexOf], [slice], [trim]) are written
    out with the clamping rules of ECMAScript, because the behaviour of the
    decoder at the end of a chunk depends on them.

    The manager is asynchronous.  Its suspended calls are kept in the state
    of the system, and a turn of the event loop is either a call of the
    manager's interface or the settling of a promise one of them awaits; the
    environment (the network, the text decoder, [JSON.parse]) is free.  The
    React hook [useSSESubscription] and the wrapper of
    [@remote-ui/async-subscription] are outside this development. *)

From Stdlib Require Import List ZArith NArith Lia Bool String Ascii Arith.
From Stdlib Require Import DecimalString.
Import ListNotations.
Local Open Scope Z_scope.

(* ================================================================= *)
(** ** JavaScript strings *)

Module JS.

(** A string is the list of its UTF-16 code units. *)
Definition jsstring := list N.

(** A literal of the development, for ASCII text. *)
Definition str (s : string) : jsstring :=
  List.map N_of_ascii (list_ascii_of_string s).

Definition len (s : jsstring) : Z := Z.of_nat (List.length s).

(** [startsWith p s]: [p] is a prefix of [s]. *)
Fixpoint startsWith (p s : jsstring) : bool :=
  match p, s with
  | [], _ => true
  | _ :: _, [] => false
  | x :: p', y :: s' => N.eqb x y && startsWith p' s'
  end.

(** [search p s i]: the least position, counted from [i] for the head of
    [s], at which [p] occurs in [s]. *)
Fixpoint search (p s : jsstring) (i : nat) : option nat :=
  if startsWith p s then Some i
  else match s with
       | [] => None
       | _ :: t => search p t (S i)
       end.

(** [String.prototype.indexOf(searchString, position)]: the position is
    clamped to [0 .. length]; the result is [-1] when there is no occurrence
    at or after it. *)
Definition clamp (s : jsstring) (position : Z) : nat :=
  Z.to_nat (Z.min (Z.max position 0) (len s)).

Definition indexOf (s p : jsstring) (position : Z) : Z :=
  let start := clamp s position in
  match search p (skipn start s) start with
  | Some k => Z.of_nat k
  | None => -1
  end.

(** [String.prototype.slice(start, end)]: a negative index counts from the
    end of the string; both indices are then clamped to [0 .. length]. *)
Definition relative (s : jsstring) (i : Z) : Z :=
  if i <? 0 then Z.max (len s + i) 0 else Z.min i (len s).

Definition slice (s : jsstring) (start finish : Z) : jsstring :=
  let from := relative s start in
  let to := relative s finish in
  firstn (Z.to_nat (Z.max (to - from) 0)) (skipn (Z.to_nat from) s).

(** The code units [trim] strips: ECMAScript's WhiteSpace and LineTerminator
    (TAB, LF, VT, FF, CR, SP, NBSP, the Unicode space separators, LS, PS and
    the byte order mark). *)
Definition isWhiteSpace (c : N) : bool :=
  ((9 <=? c) && (c <=? 13) || (c =? 32) || (c =? 160) || (c =? 5760)
   || (8192 <=? c) && (c <=? 8202) || (c =? 8232) || (c =? 8233)
   || (c =? 8239) || (c =? 8287) || (c =? 12288) || (c =? 65279))%N.

Fixpoint trimStart (s : jsstring) : jsstring :=
  match s with
  | c :: t => if isWhiteSpace c then trimStart t else s
  | [] => []
  end.

Definition trimEnd (s : jsstring) : jsstring := rev (trimStart (rev s)).

Definition trim (s : jsstring) : jsstring := trimEnd (trimStart s).

End JS.

Import JS.

(* ================================================================= *)
(** ** The frame decoder: scanning for [data: ] markers *)

Definition marker : jsstring := str "data: ".
Definition newline : jsstring := [10%N].

(** The state of the [while (true)] loop of [_extractFromSSE]: the local
    [startIndex] and the array [dataLines]. *)
Definition ScanState : Type := Z * list jsstring.

(** One pass through the body of the loop: [inr] is the [break], [inl] the
    state at the end of the body. *)
Definition scan_body (ssePayload : jsstring) (st : ScanState)
  : ScanState + list jsstring :=
  let '(startIndex, dataLines) := st in
  let dataIndex := indexOf ssePayload marker startIndex in
  if dataIndex =? -1 then inr dataLines
  else
    let startIndex := dataIndex + 6 in
    let endIndex := indexOf ssePayload newline startIndex in
    inl (endIndex, dataLines ++ [trim (slice ssePayload startIndex endIndex)]).

(** The loop, cut after [fuel] passes: [None] when it has not reached its
    [break] by then. *)
Fixpoint scan_loop (fuel : nat) (ssePayload : jsstring) (st : ScanState)
  : option (list jsstring) :=
  match fuel with
  | O => None
  | S fuel' =>
      match scan_body ssePayload st with
      | inr dataLines => Some dataLines
      | inl st' => scan_loop fuel' ssePayload st'
      end
  end.

(** The loop from its initial state.  A run that reaches the [break] does so
    within [length + 1] passes ([Scan.scan_loop_bounded] below), so [None]
    here is a loop that never reaches its [break]: it pushes onto
    [dataLines] until the engine gives up. *)
Definition extract_lines (ssePayload : jsstring) : option (list jsstring) :=
  scan_loop (S (List.length ssePayload)) ssePayload (0, []).


(** A [data: ] marker begins at position [d] of the chunk. *)
Definition marker_at (s : jsstring) (d : nat) : Prop :=
  (d <= List.length s)%nat /\ startsWith marker (skipn d s) = true.

(** The marker at [d] is dangling: no newline follows it in the chunk. *)
Definition dangling (s : jsstring) (d : nat) : Prop :=
  marker_at s d
  /\ forall e, (d + 6 <= e)%nat -> startsWith newline (skipn e s) = false.

(* ================================================================= *)
(** ** JSON values *)

(** The values [JSON.parse] produces.  A number is kept as the literal that
    denotes it and an object as its members in source order; neither the
    decoder nor the manager looks inside a parsed value. *)
Module Json.

#[local] Set Warnings "-register-all".

Inductive value : Type :=
| Null
| Bool (b : bool)
| Number (literal : jsstring)
| String (s : jsstring)
| Array (items : list value)
| Object (members : list (jsstring * value)).

Local Open Scope N_scope.

Definition is_ws (c : N) : bool :=
  (c =? 32) || (c =? 9) || (c =? 10) || (c =? 13).

Fixpoint skip_ws (s : jsstring) : jsstring :=
  match s with
  | c :: t => if is_ws c then skip_ws t else s
  | [] => []
  end.

Definition is_digit (c : N) : bool := (48 <=? c) && (c <=? 57).

Fixpoint digits (s : jsstring) : jsstring * jsstring :=
  match s with
  | c :: t => if is_digit c then let (d, r) := digits t in (c :: d, r)
              else ([], s)
  | [] => ([], [])
  end.

(** [int]: a single [0], or a non-zero digit followed by digits. *)
Definition int_part (s : jsstring) : option (jsstring * jsstring) :=
  match s with
  | c :: t =>
      if c =? 48 then Some ([c], t)
      else if is_digit c then let (d, r) := digits t in Some (c :: d, r)
      else None
  | [] => None
  end.

Definition frac_part (s : jsstring) : option (jsstring * jsstring) :=
  match s with
  | c :: t =>
      if c =? 46 then
        match digits t with
        | ([], _) => None
        | (d, r) => Some (c :: d, r)
        end
      else Some ([], s)
  | [] => Some ([], [])
  end.

Definition exp_digits (pre s : jsstring) : option (jsstring * jsstring) :=
  match digits s with
  | ([], _) => None
  | (d, r) => Some (pre ++ d, r)
  end.

Definition exp_part (s : jsstring) : option (jsstring * jsstring) :=
  match s with
  | c :: t =>
      if (c =? 101) || (c =? 69) then
        match t with
        | g :: t' =>
            if (g =? 43) || (g =? 45) then exp_digits [c; g] t'
            else exp_digits [c] t
        | [] => None
        end
      else Some ([], s)
  | [] => Some ([], [])
  end.

Definition number (s : jsstring) : option (jsstring * jsstring) :=
  let (sign, s1) := match s with
                    | c :: t => if c =? 45 then ([c], t) else ([], s)
                    | [] => ([], [])
                    end in
  match int_part s1 with
  | None => None
  | Some (i, s2) =>
      match frac_part s2 with
      | None => None
      | Some (f, s3) =>
          match exp_part s3 with
          | None => None
          | Some (e, s4) => Some (sign ++ i ++ f ++ e, s4)
          end
      end
  end.

Definition hex (c : N) : option N :=
  if is_digit c then Some (c - 48)
  else if (97 <=? c) && (c <=? 102) then Some (c - 87)
  else if (65 <=? c) && (c <=? 70) then Some (c - 55)
  else None.

Definition hex4 (a b c d : N) : option N :=
  match hex a, hex b, hex c, hex d with
  | Some x, Some y, Some z, Some w => Some (((x * 16 + y) * 16 + z) * 16 + w)
  | _, _, _, _ => None
  end.

Definition escape (c : N) : option N :=
  if (c =? 34) || (c =? 92) || (c =? 47) then Some c
  else if c =? 98 then Some 8
  else if c =? 102 then Some 12
  else if c =? 110 then Some 10
  else if c =? 114 then Some 13
  else if c =? 116 then Some 9
  else None.

(** The characters of a string literal after its opening quote, up to and
    including the closing quote. *)
Fixpoint chars (s : jsstring) : option (jsstring * jsstring) :=
  match s with
  | [] => None
  | c :: t =>
      if c =? 34 then Some ([], t)
      else if c <? 32 then None
      else if c =? 92 then
        match t with
        | [] => None
        | e :: t' =>
            if e =? 117 then
              match t' with
              | h1 :: h2 :: h3 :: h4 :: t'' =>
                  match hex4 h1 h2 h3 h4, chars t'' with
                  | Some u, Some (r, rest) => Some (u :: r, rest)
                  | _, _ => None
                  end
              | _ => None
              end
            else
              match escape e, chars t' with
              | Some u, Some (r, rest) => Some (u :: r, rest)
              | _, _ => None
              end
        end
      else
        match chars t with
        | Some (r, rest) => Some (c :: r, rest)
        | None => None
        end
  end.

Definition keyword (k : jsstring) (v : value) (s : jsstring)
  : option (value * jsstring) :=
  if startsWith k s then Some (v, skipn (List.length k) s) else None.

Fixpoint element (fuel : nat) (s : jsstring) : option (value * jsstring) :=
  match fuel with
  | O => None
  | S fuel' =>
      match skip_ws s with
      | [] => None
      | c :: t =>
          if c =? 110 then keyword (str "null") Null (c :: t)
          else if c =? 116 then keyword (str "true") (Bool true) (c :: t)
          else if c =? 102 then keyword (str "false") (Bool false) (c :: t)
          else if c =? 34 then
            match chars t with
            | Some (r, rest) => Some (String r, rest)
            | None => None
            end
          else if c =? 91 then
            match skip_ws t with
            | c' :: t' =>
                if c' =? 93 then Some (Array [], t')
                else match elements fuel' t with
                     | Some (vs, rest) => Some (Array vs, rest)
                     | None => None
                     end
            | [] => None
            end
          else if c =? 123 then
            match skip_ws t with
            | c' :: t' =>
                if c' =? 125 then Some (Object [], t')
                else match members fuel' t with
                     | Some (ms, rest) => Some (Object ms, rest)
                     | None => None
                     end
            | [] => None
            end
          else
            match number (c :: t) with
            | Some (n, rest) => Some (Number n, rest)
            | None => None
            end
      end
  end

with elements (fuel : nat) (s : jsstring) : option (list value * jsstring) :=
  match fuel with
  | O => None
  | S fuel' =>
      match element fuel' s with
      | None => None
      | Some (v, r) =>
          match skip_ws r with
          | c :: t =>
              if c =? 93 then Some ([v], t)
              else if c =? 44 then
                match elements fuel' t with
                | Some (vs, rest) => Some (v :: vs, rest)
                | None => None
                end
              else None
          | [] => None
          end
      end
  end

with members (fuel : nat) (s : jsstring)
  : option (list (jsstring * value) * jsstring) :=
  match fuel with
  | O => None
  | S fuel' =>
      match skip_ws s with
      | q :: t =>
          if q =? 34 then
            match chars t with
            | None => None
            | Some (k, r) =>
                match skip_ws r with
                | c :: r' =>
                    if c =? 58 then
                      match element fuel' r' with
                      | None => None
                      | Some (v, r'') =>
                          match skip_ws r'' with
                          | d :: t' =>
                              if d =? 125 then Some ([(k, v)], t')
                              else if d =? 44 then
                                match members fuel' t' with
                                | Some (ms, rest) => Some ((k, v) :: ms, rest)
                                | None => None
                                end
                              else None
                          | [] => None
                          end
                      end
                    else None
                | [] => None
                end
            end
          else None
      | [] => None
      end
  end.

(** [JSON.parse(text)]: one value, with nothing but white space around it;
    [None] is the [SyntaxError] it throws. *)
Definition parse (text : jsstring) : option value :=
  match element (2 * List.length text + 2) text with
  | Some (v, rest) =>
      match skip_ws rest with
      | [] => Some v
      | _ :: _ => None
      end
  | None => None
  end.

End Json.


(* ================================================================= *)
(** ** The connection manager *)

(** Subscriber callbacks and stream readers are objects; each is named by
    the number the environment gave it.  A callback only observes the state
    it is handed: it does not call back into the manager. *)
Definition Subscriber := nat.
Definition ReaderId := nat.

(** The two functions stored in a [reconnect] field: the one of
    [defaultSSEClient], which returns at once, and the closure the
    constructor builds, which disconnects and connects its manager. *)
Inductive ReconnectFn : Type :=
| reconnect_noop
| reconnect_manager.

Record SSEClient : Type := mkSSEClient {
  clientId : option jsstring;
  connected : bool;
  lastMessage : option Json.value;
  error : option jsstring;
  reconnect : ReconnectFn
}.

Definition defaultSSEClient : SSEClient :=
  {| clientId := None; connected := false; lastMessage := None;
     error := None; reconnect := reconnect_noop |}.

(** Object spread with one or two fields overridden. *)
Definition with_reconnect (c : SSEClient) (f : ReconnectFn) : SSEClient :=
  {| clientId := clientId c; connected := connected c;
     lastMessage := lastMessage c; error := error c; reconnect := f |}.

Definition with_connected (c : SSEClient) (b : bool) : SSEClient :=
  {| clientId := clientId c; connected := b;
     lastMessage := lastMessage c; error := error c;
     reconnect := reconnect c |}.

Definition with_error (c : SSEClient) (e : option jsstring) : SSEClient :=
  {| clientId := clientId c; connected := connected c;
     lastMessage := lastMessage c; error := e; reconnect := reconnect c |}.

Definition with_lastMessage (c : SSEClient) (v : Json.value) : SSEClient :=
  {| clientId := clientId c; connected := connected c;
     lastMessage := Some v; error := error c; reconnect := reconnect c |}.

(** The private fields of [RemoteSSESubscribable].  [subscribers] is a
    JavaScript [Set]: no duplicates, iterated in insertion order. *)
Record RemoteSSESubscribable : Type := mkManager {
  url : jsstring;
  client : SSEClient;
  subscribers : list Subscriber;
  reader : option ReaderId
}.

Definition constructor (u : jsstring) : RemoteSSESubscribable :=
  {| url := u;
     client := with_reconnect defaultSSEClient reconnect_manager;
     subscribers := [];
     reader := None |}.

(** The getters [initial] and [current]. *)
Definition initial (m : RemoteSSESubscribable) : SSEClient := defaultSSEClient.
Definition current (m : RemoteSSESubscribable) : SSEClient := defaultSSEClient.

Definition set_add (s : Subscriber) (l : list Subscriber) : list Subscriber :=
  if existsb (Nat.eqb s) l then l else l ++ [s].

Definition set_delete (s : Subscriber) (l : list Subscriber)
  : list Subscriber :=
  filter (fun x => negb (Nat.eqb s x)) l.

Definition with_subscribers (m : RemoteSSESubscribable)
  (l : list Subscriber) : RemoteSSESubscribable :=
  {| url := url m; client := client m; subscribers := l;
     reader := reader m |}.

Definition with_reader (m : RemoteSSESubscribable) (r : ReaderId)
  : RemoteSSESubscribable :=
  {| url := url m; client := client m; subscribers := subscribers m;
     reader := Some r |}.

(** What the manager does to the world, in the order it does it. *)
Inductive Effect : Type :=
| ECall (s : Subscriber) (state : SSEClient)
    (* the callback [s] is invoked with [state] *)
| EFetch (u : jsstring)
    (* [fetch(u, { method: "GET" })] is issued *)
| ERead (r : ReaderId)
    (* [r.read()] is issued *)
| ECancel (r : ReaderId)
    (* [r.cancel()] *)
| EReturn (s : Subscriber) (state : SSEClient)
    (* the promise of [subscribe(s)] resolves to [[unsubscribe, state]] *)
| EConsoleLog (text : jsstring)
| EConsoleError (text : jsstring).

(** [_notifySubscribers(state)] *)
Definition _notifySubscribers (m : RemoteSSESubscribable) (state : SSEClient)
  : list Effect :=
  List.map (fun s => ECall s state) (subscribers m).

(** [_disconnect()] *)
Definition _disconnect (m : RemoteSSESubscribable) : list Effect :=
  match reader m with
  | Some r =>
      ECancel r :: _notifySubscribers m (with_connected (client m) false)
  | None => []
  end.

Section Decoder.

(** [JSON.parse] belongs to the platform: the manager is written over any
    parser, [None] standing for the exception it throws. *)
Variable JSON_parse : jsstring -> option Json.value.

(** [dataLines.map(line => JSON.parse(line))]: the first line that does not
    parse throws, and the whole [map] with it. *)
Fixpoint parse_lines (dataLines : list jsstring) : option (list Json.value) :=
  match dataLines with
  | [] => Some []
  | line :: rest =>
      match JSON_parse line with
      | None => None
      | Some obj =>
          match parse_lines rest with
          | None => None
          | Some objs => Some (obj :: objs)
          end
      end
  end.

(** [_extractFromSSE(ssePayload)]: the messages returned and the effects of
    the [catch] block; [None] when the marker loop never reaches its
    [break], so that the function returns nothing. *)
Definition _extractFromSSE (m : RemoteSSESubscribable) (ssePayload : jsstring)
  : option (list Json.value * list Effect) :=
  match extract_lines ssePayload with
  | None => None
  | Some dataLines =>
      match parse_lines dataLines with
      | Some objs => Some (objs, [])
      | None =>
          Some ([],
                EConsoleError (str "Failed to parse JSON data:")
                :: _notifySubscribers m
                     (with_error (client m)
                        (Some (str "Failed to parse JSON data: "
                               ++ ssePayload))))
      end
  end.

(** [_onMessage(message)] *)
Definition _onMessage (m : RemoteSSESubscribable) (message : jsstring)
  : option (list Effect) :=
  match _extractFromSSE m message with
  | None => None
  | Some (messageObjects, effects) =>
      Some (effects
            ++ flat_map
                 (fun obj =>
                    _notifySubscribers m
                      (with_lastMessage (with_connected (client m) true) obj))
                 messageObjects)
  end.

End Decoder.

(* ================================================================= *)
(** ** [_connect] and the event loop *)

(** [_connect] is an [async] function: it runs until it has to wait for the
    environment, and goes on when the promise it waits for settles.  A [Task]
    is a suspended call of [_connect]: where it waits, and who called it
    ([subscribe] awaits the call and then returns; the [reconnect] closure
    lets it float). *)
Inductive Await : Type :=
| await_fetch
| await_read (r : ReaderId).

Inductive Caller : Type :=
| by_subscribe (s : Subscriber)
| by_reconnect.

Record Task : Type := mkTask { caller : Caller; point : Await }.

Record System : Type := mkSystem {
  manager : RemoteSSESubscribable;
  tasks : list Task
}.

(** What the environment answers.  [response None] is a response without a
    body.  [read_throws] stands for a rejected [read()] and for a chunk the
    text decoder throws on: both raise inside the same [try]. *)
Inductive FetchResult : Type :=
| response (body : option ReaderId)
| fetch_rejects (message : jsstring).

Inductive ReadResult : Type :=
| chunk (text : jsstring)
| done
| read_throws (message : jsstring).

(** What can happen to the manager: a call of its interface, or the
    settling of the promise the [i]-th suspended task waits for. *)
Inductive Input : Type :=
| call_subscribe (s : Subscriber)
| call_unsubscribe (s : Subscriber)
| call_reconnect
| fetch_settles (i : nat) (r : FetchResult)
| read_settles (i : nat) (r : ReadResult).

(** The [catch] block. *)
Definition catch_block (m : RemoteSSESubscribable) (message : jsstring)
  : list Effect :=
  EConsoleError (str "Error connecting to SSE:")
  :: _notifySubscribers m
       (with_connected (with_error (client m) (Some message)) false).

(** The [finally] block. *)
Definition finally_block (m : RemoteSSESubscribable) : list Effect :=
  _notifySubscribers m (with_connected (client m) false).

(** The rest of [subscribe] once the call it awaits has returned. *)
Definition resume (c : Caller) (m : RemoteSSESubscribable) : list Effect :=
  match c with
  | by_subscribe s => [EReturn s (client m)]
  | by_reconnect => []
  end.

(** Leaving the [try]: through the [catch] block when something was thrown,
    through the [finally] block in every case. *)
Definition leave (m : RemoteSSESubscribable) (c : Caller)
  (thrown : option jsstring) : list Effect :=
  match thrown with
  | Some message => catch_block m message
  | None => []
  end ++ finally_block m ++ resume c m.

Definition remove_nth {A} (i : nat) (l : list A) : list A :=
  firstn i l ++ skipn (S i) l.

Definition replace_nth {A} (i : nat) (x : A) (l : list A) : list A :=
  firstn i l ++ x :: skipn (S i) l.

(** [this.reader!.read()] at the top of the loop. *)
Definition next_read (sys : System) (i : nat) (c : Caller)
  : System * list Effect :=
  let m := manager sys in
  match reader m with
  | Some r =>
      ({| manager := m;
          tasks := replace_nth i (mkTask c (await_read r)) (tasks sys) |},
       [ERead r])
  | None =>
      ({| manager := m; tasks := remove_nth i (tasks sys) |},
       leave m c
         (Some (str "Cannot read properties of undefined (reading 'read')")))
  end.

(** [_connect()] up to its first [await]: the guard on the URL, then the
    request.  The flag tells whether the call has returned. *)
Definition _connect (sys : System) (c : Caller)
  : System * list Effect * bool :=
  let m := manager sys in
  if (List.length (url m) <=? 1)%nat then (sys, [], true)
  else ({| manager := m; tasks := tasks sys ++ [mkTask c await_fetch] |},
        [EFetch (url m)], false).

(** [subscribe(subscriber)] *)
Definition subscribe (sys : System) (s : Subscriber) : System * list Effect :=
  let m := with_subscribers (manager sys)
             (set_add s (subscribers (manager sys))) in
  let sys1 := {| manager := m; tasks := tasks sys |} in
  match reader m with
  | None =>
      let '(sys2, effects, returned) := _connect sys1 (by_subscribe s) in
      (sys2, effects ++ if returned then resume (by_subscribe s) (manager sys2)
                        else [])
  | Some _ => (sys1, resume (by_subscribe s) m)
  end.

(** The [unsubscribe] closure [subscribe(s)] returns. *)
Definition unsubscribe (sys : System) (s : Subscriber)
  : System * list Effect :=
  let m := with_subscribers (manager sys)
             (set_delete s (subscribers (manager sys))) in
  ({| manager := m; tasks := tasks sys |},
   if (List.length (subscribers m) =? 0)%nat then _disconnect m else []).

(** The [reconnect] closure of the constructor. *)
Definition reconnect_closure (sys : System) : System * list Effect :=
  let effects := _disconnect (manager sys) in
  let '(sys1, effects', _) := _connect sys by_reconnect in
  (sys1, effects ++ effects').

(** The message of the [RangeError] that ends a marker loop which never
    reaches its [break], when [dataLines] has grown beyond what an array
    holds (the text is the engine's). *)
Definition array_overflow : jsstring := str "Invalid array length".

Section EventLoop.

Variable JSON_parse : jsstring -> option Json.value.

(** One turn of the event loop.  A promise nobody waits for cannot settle:
    such an input changes nothing.  On a chunk whose marker loop never
    reaches its [break], [_onMessage] does not return: the exception that
    ends the loop is raised inside the [try] of [_connect], which is left
    through its [catch] and [finally] blocks.  Every turn completes
    ([Frame.run_total]). *)
Definition step (sys : System) (i : Input) : option (System * list Effect) :=
  let m := manager sys in
  match i with
  | call_subscribe s => Some (subscribe sys s)
  | call_unsubscribe s => Some (unsubscribe sys s)
  | call_reconnect => Some (reconnect_closure sys)
  | fetch_settles k result =>
      match nth_error (tasks sys) k with
      | Some (mkTask c await_fetch) =>
          match result with
          | response (Some r) =>
              Some (next_read
                      {| manager := with_reader m r; tasks := tasks sys |} k c)
          | response None =>
              Some ({| manager := m; tasks := remove_nth k (tasks sys) |},
                    leave m c
                      (Some (str "ReadableStream not supported in this environment")))
          | fetch_rejects message =>
              Some ({| manager := m; tasks := remove_nth k (tasks sys) |},
                    leave m c (Some message))
          end
      | _ => Some (sys, [])
      end
  | read_settles k result =>
      match nth_error (tasks sys) k with
      | Some (mkTask c (await_read _)) =>
          match result with
          | done =>
              Some ({| manager := m; tasks := remove_nth k (tasks sys) |},
                    EConsoleLog (str "Reader is done") :: leave m c None)
          | read_throws message =>
              Some ({| manager := m; tasks := remove_nth k (tasks sys) |},
                    leave m c (Some message))
          | chunk text =>
              match _onMessage JSON_parse m text with
              | None =>
                  Some ({| manager := m; tasks := remove_nth k (tasks sys) |},
                        leave m c (Some array_overflow))
              | Some effects =>
                  let (sys', effects') := next_read sys k c in
                  Some (sys', effects ++ effects')
              end
          end
      | _ => Some (sys, [])
      end
  end.

(** A sequence of turns, with everything the manager did along the way
    (always [Some]: [Frame.run_total]). *)
Fixpoint run (sys : System) (inputs : list Input)
  : option (System * list Effect) :=
  match inputs with
  | [] => Some (sys, [])
  | i :: rest =>
      match step sys i with
      | None => None
      | Some (sys', effects) =>
          match run sys' rest with
          | None => None
          | Some (sys'', effects') => Some (sys'', effects ++ effects')
          end
      end
  end.

End EventLoop.

(** A manager as [new RemoteSSESubscribable(u)] leaves it. *)
Definition boot (u : jsstring) : System :=
  {| manager := constructor u; tasks := [] |}.

(** The states the callbacks were invoked with, per invocation, in order. *)
Fixpoint calls (effects : list Effect) : list (Subscriber * SSEClient) :=
  match effects with
  | [] => []
  | ECall s state :: rest => (s, state) :: calls rest
  | _ :: rest => calls rest
  end.

(** The values the promises of [subscribe] resolved to, in order. *)
Fixpoint returns (effects : list Effect) : list (Subscriber * SSEClient) :=
  match effects with
  | [] => []
  | EReturn s state :: rest => (s, state) :: returns rest
  | _ :: rest => returns rest
  end.

(* ================================================================= *)
(** ** The process-wide holder *)

(** What [makeStatefulSubscribable(new RemoteSSESubscribable(url))] returns:
    a new object, named by the allocation that made it, around a manager
    bound to [url] (no operation of the manager assigns its [url]). *)
Record StatefulRemoteSubscribable : Type := mkStateful {
  ref : nat;
  bound_url : jsstring
}.

(** The module variable [statefulSubscribable], with the count of the
    objects made so far. *)
Record Holder : Type := mkHolder {
  statefulSubscribable : option StatefulRemoteSubscribable;
  allocated : nat
}.

(** [useStatefulSubscribableSSE(url)]; [None] is [undefined], for the
    argument and for the result. *)
Definition useStatefulSubscribableSSE (u : option jsstring) (h : Holder)
  : Holder * option StatefulRemoteSubscribable :=
  match statefulSubscribable h, u with
  | None, Some (c :: t) =>
      let made := {| ref := allocated h; bound_url := c :: t |} in
      ({| statefulSubscribable := Some made; allocated := S (allocated h) |},
       Some made)
  | _, _ => (h, statefulSubscribable h)
  end.

(** [destroyStatefulSubscribableSSE()]: the instance whose [destroy] is
    called, if one is held, and the holder emptied. *)
Definition destroyStatefulSubscribableSSE (h : Holder)
  : Holder * option nat :=
  ({| statefulSubscribable := None; allocated := allocated h |},
   option_map ref (statefulSubscribable h)).

(** Successive calls of [useStatefulSubscribableSSE], with their results. *)
Fixpoint acquire_all (us : list (option jsstring)) (h : Holder)
  : Holder * list (option StatefulRemoteSubscribable) :=
  match us with
  | [] => (h, [])
  | u :: rest =>
      let (h1, r) := useStatefulSubscribableSSE u h in
      let (h2, rs) := acquire_all rest h1 in
      (h2, r :: rs)
  end.


(* ================================================================= *)
(** ** Vocabulary of the properties *)

(** A [read()] result on which the read loop is left: the end of the
    stream, an exception, or a chunk whose marker loop never reaches its
    [break] and so ends in an exception. *)
Definition exits (r : ReadResult) : bool :=
  match r with
  | chunk text =>
      match extract_lines text with
      | None => true
      | Some _ => false
      end
  | done | read_throws _ => true
  end.

Definition is_subscribe (i : Input) : bool :=
  match i with
  | call_subscribe _ => true
  | _ => false
  end.

(** Two systems whose managers have the same [url] and the same stored
    client record. *)
Record Same (sys sys' : System) : Prop := {
  same_url : url (manager sys') = url (manager sys);
  same_client : client (manager sys') = client (manager sys)
}.

(** Every suspended read loop belongs to a manager that holds a reader. *)
Definition loops_have_reader (sys : System) : Prop :=
  forall c r, In (mkTask c (await_read r)) (tasks sys) ->
              reader (manager sys) <> None.

(** The broadcast of one decoded message. *)
Definition message_state (m : RemoteSSESubscribable) (obj : Json.value)
  : SSEClient :=
  with_lastMessage (with_connected (client m) true) obj.

(** Sample data: the quotation mark, two payloads and chunks made of them. *)
Definition dq : jsstring := [34%N].

Definition payload_a : jsstring := str "{" ++ dq ++ str "a" ++ dq ++ str ":1}".
Definition payload_b : jsstring := str "{" ++ dq ++ str "b" ++ dq ++ str ":2}".

Definition object_a : Json.value := Json.Object [(str "a", Json.Number (str "1"))].
Definition object_b : Json.value := Json.Object [(str "b", Json.Number (str "2"))].

Definition two_frames : jsstring :=
  str "data: " ++ payload_a ++ newline ++ str "data: " ++ payload_b ++ newline.

Definition one_bad_frame : jsstring :=
  str "data: " ++ payload_a ++ newline ++ str "data: {oops" ++ newline.

Definition dangling_frame : jsstring := str "data: {}".

Definition some_url : jsstring := str "https://pos.example/events".

(** Sample sessions of one subscriber: a stream that delivers the message
    [1] and is then closed by the server, one that is open and has
    delivered it, and one whose first [read()] fails. *)
Definition open_session : list Input :=
  [call_subscribe 0%nat;
   fetch_settles 0 (response (Some 7%nat));
   read_settles 0 (chunk (str "data: 1" ++ newline))].

Definition closed_session : list Input :=
  open_session ++ [read_settles 0 done].

Definition failed_session : list Input :=
  [call_subscribe 0%nat;
   fetch_settles 0 (response (Some 7%nat));
   read_settles 0 (read_throws (str "network error"))].

(** The system [open_session] leads to: one subscriber, the reader held,
    the read loop waiting for its next chunk. *)
Definition streaming : System :=
  {| manager := with_reader (with_subscribers (constructor some_url) [0%nat])
                  7%nat;
     tasks := [mkTask (by_subscribe 0%nat) (await_read 7%nat)] |}.

(** The holder of a process that has made no instance yet. *)
Definition fresh_holder : Holder :=
  {| statefulSubscribable := None; allocated := 0 |}.

(** A manager with two subscribers. *)
Definition audience : RemoteSSESubscribable :=
  with_subscribers (constructor some_url) [0%nat; 1%nat].

(** A frame as the server writes it: the marker, the payload, a newline;
    and a chunk made of frames. *)
Definition frame (payload : jsstring) : jsstring :=
  marker ++ payload ++ newline.

Definition frames (payloads : list jsstring) : jsstring :=
  flat_map frame payloads.

(** The URLs requested, in order. *)
Fixpoint requests (effects : list Effect) : list jsstring :=
  match effects with
  | [] => []
  | EFetch u :: rest => u :: requests rest
  | _ :: rest => requests rest
  end.

(** The states the manager spreads from a stored record [base]: the one of
    a message, the one of a disconnection, the one of a failed connection
    and the one of a chunk that does not parse. *)
Inductive Broadcast (base : SSEClient) : SSEClient -> Prop :=
| broadcast_message (obj : Json.value) :
    Broadcast base (with_lastMessage (with_connected base true) obj)
| broadcast_disconnected :
    Broadcast base (with_connected base false)
| broadcast_failure (message : jsstring) :
    Broadcast base (with_connected (with_error base (Some message)) false)
| broadcast_parse_error (message : jsstring) :
    Broadcast base (with_error base (Some message)).

(** What a response that does not open a stream makes [_connect] throw. *)
Definition failure_message (r : FetchResult) : option jsstring :=
  match r with
  | fetch_rejects message => Some message
  | response None =>
      Some (str "ReadableStream not supported in this environment")
  | response (Some _) => None
  end.

(** Calls of the two functions of the holder, in any order. *)
Inductive HolderCall : Type :=
| call_use (u : option jsstring)
| call_destroy.

Fixpoint holder_run (cs : list HolderCall) (h : Holder) : Holder :=
  match cs with
  | [] => h
  | call_use u :: rest => holder_run rest (fst (useStatefulSubscribableSSE u h))
  | call_destroy :: rest =>
      holder_run rest (fst (destroyStatefulSubscribableSSE h))
  end.

(** The system of a manager bound to [u] whose only subscriber [s] has
    subscribed and whose stream, read through [r], is open. *)
Definition listening (u : jsstring) (s : Subscriber) (r : ReaderId) : System :=
  {| manager := with_reader (with_subscribers (constructor u) [s]) r;
     tasks := [mkTask (by_subscribe s) (await_read r)] |}.

Definition is_return (e : Effect) : bool :=
  match e with
  | EReturn _ _ => true
  | _ => false
  end.

(* ================================================================= *)
(** ** The text decoder polyfill *)

(** [TextDecoderPolyfill.prototype.decode]: the input is copied into a
    [Uint8Array], the bytes are turned into a string of as many code units
    ([String.fromCharCode]), that string is percent-encoded ([escape]) and
    the result percent-decoded as UTF-8 ([decodeURIComponent]).  The
    built-ins are written out after ECMAScript.  An engine takes only so
    many arguments in [apply] and throws a [RangeError] beyond: the limit
    is a parameter of [decode_within]. *)
Module Polyfill.

Local Open Scope N_scope.

(** [new Uint8Array(input)]: each element modulo [2^8]. *)
Definition Uint8Array (input : list N) : list N :=
  List.map (fun b => b mod 256) input.

(** [String.fromCharCode]: each argument modulo [2^16]. *)
Definition fromCharCode (codes : list N) : jsstring :=
  List.map (fun c => c mod 65536) codes.

(** The code units [escape] leaves alone: letters, digits and [@*_+-./]. *)
Definition unescaped (c : N) : bool :=
  (65 <=? c) && (c <=? 90) || (97 <=? c) && (c <=? 122)
  || (48 <=? c) && (c <=? 57)
  || (c =? 64) || (c =? 42) || (c =? 95) || (c =? 43) || (c =? 45)
  || (c =? 46) || (c =? 47).

Definition hex_digit (n : N) : N := if n <? 10 then 48 + n else 55 + n.

Definition escape_unit (c : N) : jsstring :=
  if unescaped c then [c]
  else if c <? 256 then [37; hex_digit (c / 16); hex_digit (c mod 16)]
  else [37; 117; hex_digit (c / 4096); hex_digit ((c / 256) mod 16);
        hex_digit ((c / 16) mod 16); hex_digit (c mod 16)].

Definition escape (s : jsstring) : jsstring := flat_map escape_unit s.

Definition hex_value (c : N) : option N :=
  if (48 <=? c) && (c <=? 57) then Some (c - 48)
  else if (97 <=? c) && (c <=? 102) then Some (c - 87)
  else if (65 <=? c) && (c <=? 70) then Some (c - 55)
  else None.

Definition hex_octet (a b : N) : option N :=
  match hex_value a, hex_value b with
  | Some x, Some y => Some (16 * x + y)
  | _, _ => None
  end.

(** The number of leading 1 bits of an octet. *)
Definition leading_ones (b : N) : nat :=
  if b <? 128 then 0
  else if b <? 192 then 1
  else if b <? 224 then 2
  else if b <? 240 then 3
  else if b <? 248 then 4
  else 5.

Definition is_continuation (b : N) : bool := (128 <=? b) && (b <? 192).

(** [CodePointToUTF16CodeUnits] *)
Definition utf16 (v : N) : jsstring :=
  if v <? 65536 then [v]
  else [55296 + (v - 65536) / 1024; 56320 + (v - 65536) mod 1024].

(** The code point of a well-formed UTF-8 sequence of two, three or four
    octets: continuation octets, no overlong form, no surrogate, nothing
    above U+10FFFF. *)
Definition utf8_2 (b0 b1 : N) : option N :=
  let v := (b0 - 192) * 64 + (b1 - 128) in
  if is_continuation b1 && (128 <=? v) then Some v else None.

Definition utf8_3 (b0 b1 b2 : N) : option N :=
  let v := ((b0 - 224) * 64 + (b1 - 128)) * 64 + (b2 - 128) in
  if is_continuation b1 && is_continuation b2 && (2048 <=? v)
     && negb ((55296 <=? v) && (v <=? 57343))
  then Some v else None.

Definition utf8_4 (b0 b1 b2 b3 : N) : option N :=
  let v := (((b0 - 240) * 64 + (b1 - 128)) * 64 + (b2 - 128)) * 64
           + (b3 - 128) in
  if is_continuation b1 && is_continuation b2 && is_continuation b3
     && (65536 <=? v) && (v <=? 1114111)
  then Some v else None.

(** [decodeURIComponent]: [None] is the [URIError] it throws. *)
Fixpoint decodeURIComponent (s : jsstring) : option jsstring :=
  match s with
  | [] => Some []
  | c :: t =>
      if negb (c =? 37) then option_map (cons c) (decodeURIComponent t)
      else
        match t with
        | a0 :: c0 :: r0 =>
            match hex_octet a0 c0 with
            | None => None
            | Some b0 =>
                match leading_ones b0 with
                | O => option_map (cons b0) (decodeURIComponent r0)
                | 2%nat =>
                    match r0 with
                    | p1 :: a1 :: c1 :: r1 =>
                        match (if p1 =? 37 then hex_octet a1 c1 else None) with
                        | Some b1 =>
                            match utf8_2 b0 b1 with
                            | Some v =>
                                option_map (app (utf16 v))
                                  (decodeURIComponent r1)
                            | None => None
                            end
                        | None => None
                        end
                    | _ => None
                    end
                | 3%nat =>
                    match r0 with
                    | p1 :: a1 :: c1 :: p2 :: a2 :: c2 :: r2 =>
                        match (if p1 =? 37 then hex_octet a1 c1 else None),
                              (if p2 =? 37 then hex_octet a2 c2 else None) with
                        | Some b1, Some b2 =>
                            match utf8_3 b0 b1 b2 with
                            | Some v =>
                                option_map (app (utf16 v))
                                  (decodeURIComponent r2)
                            | None => None
                            end
                        | _, _ => None
                        end
                    | _ => None
                    end
                | 4%nat =>
                    match r0 with
                    | p1 :: a1 :: c1 :: p2 :: a2 :: c2 :: p3 :: a3 :: c3 :: r3 =>
                        match (if p1 =? 37 then hex_octet a1 c1 else None),
                              (if p2 =? 37 then hex_octet a2 c2 else None),
                              (if p3 =? 37 then hex_octet a3 c3 else None) with
                        | Some b1, Some b2, Some b3 =>
                            match utf8_4 b0 b1 b2 b3 with
                            | Some v =>
                                option_map (app (utf16 v))
                                  (decodeURIComponent r3)
                            | None => None
                            end
                        | _, _, _ => None
                        end
                    | _ => None
                    end
                | _ => None
                end
            end
        | _ => None
        end
  end.

(** What [decode] throws. *)
Inductive Thrown : Type :=
| URIError
| RangeError
| Error (message : jsstring).

Fixpoint same (a b : jsstring) : bool :=
  match a, b with
  | [], [] => true
  | x :: a', y :: b' => (x =? y) && same a' b'
  | _, _ => false
  end.

(** [decode(input)] of a polyfill made for [encoding], on an input the
    engine takes as an argument list. *)
Definition decode (encoding : jsstring) (input : list N)
  : jsstring + Thrown :=
  if same encoding (str "utf-8") then
    match decodeURIComponent (escape (fromCharCode (Uint8Array input))) with
    | Some text => inl text
    | None => inr URIError
    end
  else inr (Error (str "Unsupported encoding")).

(** [decode(input)] in an engine whose [apply] takes at most [limit]
    arguments. *)
Definition decode_within (limit : nat) (encoding : jsstring) (input : list N)
  : jsstring + Thrown :=
  if same encoding (str "utf-8") then
    if (limit <? List.length input)%nat then inr RangeError
    else decode encoding input
  else inr (Error (str "Unsupported encoding")).

(** The UTF-8 form of a code point below U+0800. *)
Definition utf8_short (v : N) : list N :=
  if v <? 128 then [v] else [192 + v / 64; 128 + v mod 64].

(** The percent-encoding of an ASCII byte decodes to that byte. *)
Definition ascii_unit_ok (b : N) : bool :=
  negb (b <? 128)
  || match decodeURIComponent (escape_unit ((b mod 256) mod 65536)) with
     | Some [c] => (c =? b)
     | _ => false
     end.

(** The percent-encoding of a byte that is not ASCII does not decode. *)
Definition lone_unit_fails (b : N) : bool :=
  (b <? 128)
  || match decodeURIComponent (escape_unit ((b mod 256) mod 65536)) with
     | None => true
     | Some _ => false
     end.

Definition short_ok (v : N) : bool :=
  match decodeURIComponent
          (escape (fromCharCode (Uint8Array (utf8_short v)))) with
  | Some [c] => (c =? v)
  | _ => false
  end.

End Polyfill.

(* ================================================================= *)
(** ** The authenticated fetch of [packages/checkout/hooks] *)

(** [useAuthenticatedFetch] returns [fetchWithAuth].  Plain objects are
    lists of their own enumerable properties; the order of the properties
    is not looked at.  The session token, [fetch] and the response belong
    to the environment: a promise either resolves or is rejected with an
    error, kept as its message. *)
Module AuthFetch.

(** The value of a property: a string, or an array of strings (what the
    spread of an array of pairs leaves under each index). *)
Inductive Value : Type :=
| text (s : jsstring)
| strings (items : list jsstring).

Definition Obj : Type := list (jsstring * Value).

(** [HeadersInit]: a plain object, a [Headers] instance or an array of
    name-value pairs. *)
Inductive HeadersInit : Type :=
| plain_object (o : Obj)
| headers_instance (entries : list (jsstring * jsstring))
| array_of_pairs (pairs : list (list jsstring)).

Fixpoint key_eqb (a b : jsstring) : bool :=
  match a, b with
  | [], [] => true
  | x :: a', y :: b' => N.eqb x y && key_eqb a' b'
  | _, _ => false
  end.

(** [o[k]] *)
Fixpoint get (o : Obj) (k : jsstring) : option Value :=
  match o with
  | [] => None
  | (k', v) :: rest => if key_eqb k k' then Some v else get rest k
  end.

(** [o[k] = v] *)
Fixpoint set (o : Obj) (k : jsstring) (v : Value) : Obj :=
  match o with
  | [] => [(k, v)]
  | (k', v') :: rest =>
      if key_eqb k k' then (k', v) :: rest else (k', v') :: set rest k v
  end.

(** [{ ...target, ...source }]: the properties of [source] are set, one
    after the other, on a copy of [target]. *)
Definition spread (target source : Obj) : Obj :=
  fold_left (fun acc kv => set acc (fst kv) (snd kv)) source target.

(** A [RequestInit]: its [headers], when it has some, and its other
    properties ([method], [body], ...). *)
Record RequestInit : Type := mkInit {
  headers : option HeadersInit;
  others : Obj
}.

(** The property name of an array index. *)
Definition index_key (i : nat) : jsstring :=
  str (NilZero.string_of_uint (Nat.to_uint i)).

Fixpoint indexed (i : nat) (pairs : list (list jsstring)) : Obj :=
  match pairs with
  | [] => []
  | p :: rest => (index_key i, strings p) :: indexed (S i) rest
  end.

(** The own enumerable properties of a [HeadersInit], which are what an
    object spread copies: those of a plain object, none for a [Headers]
    instance (its entries are internal), the indices for an array. *)
Definition own_properties (h : HeadersInit) : Obj :=
  match h with
  | plain_object o => o
  | headers_instance _ => []
  | array_of_pairs pairs => indexed 0 pairs
  end.

Inductive Settled (A : Type) : Type :=
| resolved (a : A)
| rejected (message : jsstring).

Arguments resolved {A} a.
Arguments rejected {A} message.

(** A response: its [ok] flag and what [json()] settles to. *)
Record Response : Type := mkResponse {
  ok : bool;
  json : Settled Json.value
}.

Inductive Event : Type :=
| fetch_called (input : jsstring) (init : RequestInit)
| json_called.

Definition defaultHeaders (token : jsstring) : Obj :=
  [(str "Authorization", text (str "Bearer " ++ token));
   (str "Content-Type", text (str "application/json"))].

(** [init?.headers || {}] *)
Definition incoming (init : option RequestInit) : Obj :=
  match init with
  | Some i =>
      match headers i with
      | Some h => own_properties h
      | None => []
      end
  | None => []
  end.

Definition mergedHeaders (token : jsstring) (init : option RequestInit)
  : Obj :=
  spread (spread [] (defaultHeaders token)) (incoming init).

(** [{ ...init, headers: mergedHeaders }] *)
Definition mergedInit (token : jsstring) (init : option RequestInit)
  : RequestInit :=
  {| headers := Some (plain_object (mergedHeaders token init));
     others := match init with Some i => spread [] (others i) | None => [] end |}.

(** [fetchWithAuth(input, init)]: what it called, and what its promise
    settles to. *)
Definition fetchWithAuth
  (sessionToken_get : Settled jsstring)
  (fetch : jsstring -> RequestInit -> Settled Response)
  (input : jsstring) (init : option RequestInit)
  : list Event * Settled Json.value :=
  match sessionToken_get with
  | rejected e => ([], rejected e)
  | resolved token =>
      let request := mergedInit token init in
      match fetch input request with
      | rejected e => ([fetch_called input request], rejected e)
      | resolved answer =>
          if ok answer
          then ([fetch_called input request; json_called], json answer)
          else ([fetch_called input request],
                rejected (str "Network response was not ok"))
      end
  end.

(** The request of the repository's test: a [GET] with one custom
    header. *)
Definition test_init : RequestInit :=
  {| headers :=
       Some (plain_object [(str "Custom-Header", text (str "custom-value"))]);
     others := [(str "method", text (str "GET"))] |}.


Definition test_input : jsstring := str "https://api.example.com/data".

End AuthFetch.

(** More sample data: a session in which [reconnect] is called while the
    stream is open and the new response arrives before the old loop has
    seen the end of its stream; calls on a manager with a one-character
    URL. *)
Definition reconnected_session : list Input :=
  [call_subscribe 0%nat;
   fetch_settles 0 (response (Some 7%nat));
   call_reconnect;
   fetch_settles 1 (response (Some 8%nat))].

Definition idle_calls : list Input :=
  [call_subscribe 0%nat; call_reconnect;
   fetch_settles 0 (response (Some 7%nat));
   read_settles 0 (chunk two_frames);
   call_unsubscribe 0%nat].

(* ================================================================= *)
(** ** Facts about the string operations *)

Module JSFacts.

Lemma startsWith_app (p s : jsstring) :
  startsWith p s = true -> s = p ++ skipn (List.length p) s.
Proof.
  revert s; induction p as [|x p IH]; intros [|y s]; simpl; try discriminate;
    auto.
  intros H. apply andb_true_iff in H as [Hxy Hps].
  apply N.eqb_eq in Hxy. subst y. f_equal. now apply IH.
Qed.

Lemma startsWith_length (p s : jsstring) :
  startsWith p s = true -> (List.length p <= List.length s)%nat.
Proof.
  intros H. apply startsWith_app in H.
  apply (f_equal (@List.length N)) in H. rewrite length_app in H. lia.
Qed.

(** [search] returns the first occurrence. *)
Lemma search_some (p : jsstring) :
  forall s i k, search p s i = Some k ->
    (i <= k /\ k - i <= List.length s
     /\ startsWith p (skipn (k - i) s) = true)%nat.
Proof.
  induction s as [|c t IH]; intros i k; simpl.
  - destruct (startsWith p []) eqn:E; [|discriminate].
    intros [= <-]. rewrite Nat.sub_diag. simpl. auto.
  - destruct (startsWith p (c :: t)) eqn:E.
    + intros [= <-]. rewrite Nat.sub_diag. simpl. repeat split; auto; lia.
    + intros H. apply IH in H as (H1 & H2 & H3).
      replace (k - i)%nat with (S (k - S i)) by lia. simpl.
      repeat split; auto; lia.
Qed.

Lemma search_found (p : jsstring) :
  forall s i j, (j <= List.length s)%nat ->
    startsWith p (skipn j s) = true ->
    exists k, search p s i = Some k /\ (k <= i + j)%nat.
Proof.
  induction s as [|c t IH]; intros i j Hj H; simpl in *.
  - assert (j = 0)%nat by lia. subst j. simpl in H. rewrite H.
    exists i. split; auto; lia.
  - destruct (startsWith p (c :: t)) eqn:E.
    + exists i. split; auto; lia.
    + destruct j as [|j]; simpl in H; [congruence|].
      destruct (IH (S i) j) as (k & Hk & Hle); auto; [lia|].
      exists k. split; auto; lia.
Qed.

Lemma search_none (p : jsstring) :
  forall s i j, search p s i = None -> (j <= List.length s)%nat ->
    startsWith p (skipn j s) = false.
Proof.
  intros s i j Hn Hj.
  destruct (startsWith p (skipn j s)) eqn:E; auto.
  destruct (search_found p s i j Hj E) as (k & Hk & _). congruence.
Qed.

Lemma clamp_le (s : jsstring) (position : Z) :
  (clamp s position <= List.length s)%nat.
Proof. unfold clamp, len. lia. Qed.

Lemma clamp_in_range (s : jsstring) (position : Z) :
  0 <= position <= len s -> Z.of_nat (clamp s position) = position.
Proof. unfold clamp, len. lia. Qed.

(** [indexOf] answers [-1] or the position of an occurrence at or after the
    clamped start. *)
Lemma indexOf_cases (s p : jsstring) (position : Z) :
  indexOf s p position = -1
  \/ exists k : nat,
       indexOf s p position = Z.of_nat k
       /\ (clamp s position <= k <= List.length s)%nat
       /\ startsWith p (skipn k s) = true.
Proof.
  unfold indexOf.
  pose proof (clamp_le s position) as Hc.
  destruct (search p (skipn (clamp s position) s) (clamp s position))
    as [k|] eqn:E; [right|left; reflexivity].
  apply search_some in E as (H1 & H2 & H3).
  rewrite length_skipn in H2. rewrite skipn_skipn in H3.
  replace (k - clamp s position + clamp s position)%nat with k in H3 by lia.
  exists k. repeat split; auto; lia.
Qed.

(** An occurrence at or after the start is found, or an earlier one is. *)
Lemma indexOf_found (s p : jsstring) (position : Z) (d : nat) :
  (clamp s position <= d <= List.length s)%nat ->
  startsWith p (skipn d s) = true ->
  exists k : nat,
    indexOf s p position = Z.of_nat k
    /\ (clamp s position <= k <= d)%nat
    /\ startsWith p (skipn k s) = true.
Proof.
  intros Hd H.
  destruct (indexOf_cases s p position) as [Hn|(k & Hk & Hr & Hs)].
  - exfalso. unfold indexOf in Hn.
    destruct (search p (skipn (clamp s position) s) (clamp s position))
      as [k|] eqn:E; [lia|].
    assert (startsWith p (skipn (d - clamp s position)
                            (skipn (clamp s position) s)) = false) as Hf.
    { apply search_none with (i := clamp s position); auto.
      rewrite length_skipn. lia. }
    rewrite skipn_skipn in Hf.
    replace (d - clamp s position + clamp s position)%nat with d in Hf by lia.
    congruence.
  - exists k. repeat split; auto; try lia.
    unfold indexOf in Hk.
    destruct (search p (skipn (clamp s position) s) (clamp s position))
      as [k'|] eqn:E; [|lia].
    assert (k' = k) by lia. subst k'.
    destruct (search_found p (skipn (clamp s position) s) (clamp s position)
                (d - clamp s position)) as (k2 & Hk2 & Hle).
    + rewrite length_skipn. lia.
    + rewrite skipn_skipn.
      replace (d - clamp s position + clamp s position)%nat with d by lia.
      exact H.
    + rewrite E in Hk2. injection Hk2 as <-. lia.
Qed.

(** [-1] means that nothing occurs at or after the start. *)
Lemma indexOf_none (s p : jsstring) (position : Z) (d : nat) :
  indexOf s p position = -1 ->
  (clamp s position <= d <= List.length s)%nat ->
  startsWith p (skipn d s) = false.
Proof.
  intros Hn Hd. destruct (startsWith p (skipn d s)) eqn:E; auto.
  destruct (indexOf_found s p position d Hd E) as (k & Hk & _). lia.
Qed.

End JSFacts.

(* ================================================================= *)
(** ** When the marker loop ends *)

Module Scan.
Import JSFacts.

Lemma marker_at_room (s : jsstring) (d : nat) :
  marker_at s d -> (d + 6 <= List.length s)%nat.
Proof.
  intros [Hd H]. apply startsWith_length in H.
  rewrite length_skipn in H. change (List.length marker) with 6%nat in H. lia.
Qed.

(** No newline inside a marker. *)
Lemma marker_no_newline (s : jsstring) (d e : nat) :
  marker_at s d -> (d <= e < d + 6)%nat ->
  startsWith newline (skipn e s) = false.
Proof.
  intros [Hd H] He. apply startsWith_app in H.
  replace e with ((e - d) + d)%nat by lia.
  rewrite <- skipn_skipn, H.
  assert (e - d < 6)%nat as Hlt by lia.
  destruct (e - d)%nat as [|[|[|[|[|[|n]]]]]]; try reflexivity; lia.
Qed.

Lemma clamp_after_marker (s : jsstring) (k : nat) :
  marker_at s k -> clamp s (Z.of_nat k + 6) = (k + 6)%nat.
Proof.
  intros H. apply marker_at_room in H. unfold clamp, len. lia.
Qed.

(** With a dangling marker ahead of [startIndex] the loop does not reach
    its [break], whatever the number of passes. *)
Lemma scan_loop_dangling (s : jsstring) (d : nat) :
  dangling s d ->
  forall fuel startIndex dataLines,
    startIndex <= Z.of_nat d ->
    scan_loop fuel s (startIndex, dataLines) = None.
Proof.
  intros [Hm Hno]. pose proof (marker_at_room _ _ Hm) as Hroom.
  induction fuel as [|fuel IH]; intros startIndex dataLines Hle; [reflexivity|].
  simpl. unfold scan_body.
  destruct (indexOf_found s marker startIndex d) as (k & Hk & Hr & Hs).
  { unfold clamp, len. lia. }
  { apply Hm. }
  rewrite Hk.
  destruct (Z.eqb_spec (Z.of_nat k) (-1)) as [Hneg|_]; [lia|].
  assert (marker_at s k) as Hmk by (split; [lia|exact Hs]).
  apply IH.
  destruct (indexOf_cases s newline (Z.of_nat k + 6))
    as [Hn|(e & He & Hre & Hse)]; [lia|].
  rewrite He. rewrite (clamp_after_marker _ _ Hmk) in Hre.
  destruct (Nat.lt_ge_cases e d) as [Hlt|Hge]; [lia|exfalso].
  destruct (Nat.lt_ge_cases e (d + 6)) as [Hin|Hout].
  - rewrite (marker_no_newline s d e Hm) in Hse; [discriminate|lia].
  - rewrite (Hno e Hout) in Hse. discriminate.
Qed.

(** A loop that has not reached its [break] after [length - startIndex + 1]
    passes has met a dangling marker. *)
Lemma scan_loop_none (s : jsstring) :
  forall n startIndex dataLines,
    0 <= startIndex -> len s - startIndex <= Z.of_nat n ->
    scan_loop (S n) s (startIndex, dataLines) = None ->
    exists d, dangling s d.
Proof.
  induction n as [|n IH]; intros startIndex dataLines H0 Hn;
    cbn [scan_loop]; unfold scan_body;
    (destruct (indexOf_cases s marker startIndex)
      as [Hneg|(k & Hk & Hr & Hs)];
     [rewrite Hneg; simpl; discriminate|]);
    rewrite Hk;
    (destruct (Z.eqb_spec (Z.of_nat k) (-1)) as [Hneg|_]; [lia|]);
    assert (marker_at s k) as Hmk by (split; [lia|exact Hs]);
    pose proof (marker_at_room _ _ Hmk) as Hroom;
    assert (startIndex <= Z.of_nat k) as Hsk
      by (unfold clamp, len in Hr; lia).
  - unfold len in Hn. lia.
  - destruct (indexOf_cases s newline (Z.of_nat k + 6))
      as [Hnone|(e & He & Hre & Hse)].
    + intros _. exists k. split; [exact Hmk|].
      intros e He. destruct (Nat.le_gt_cases e (List.length s)) as [Hin|Hout].
      * apply (indexOf_none s newline (Z.of_nat k + 6)); auto.
        rewrite (clamp_after_marker _ _ Hmk). lia.
      * rewrite skipn_all2 by lia. reflexivity.
    + rewrite He. rewrite (clamp_after_marker _ _ Hmk) in Hre.
      apply IH; unfold len in *; lia.
Qed.

Lemma scan_loop_more (s : jsstring) :
  forall n m st l, scan_loop n s st = Some l -> (n <= m)%nat ->
                   scan_loop m s st = Some l.
Proof.
  induction n as [|n IH]; intros m st l H Hle; [discriminate|].
  destruct m as [|m]; [lia|]. simpl in *.
  destruct (scan_body s st); auto. apply IH; auto. lia.
Qed.

(** [extract_lines] is [None] exactly on the chunks with a dangling marker,
    and on those no number of passes reaches the [break]. *)
Lemma extract_lines_none (s : jsstring) :
  extract_lines s = None <-> exists d, dangling s d.
Proof.
  split.
  - intros H. apply (scan_loop_none s (List.length s) 0 []); auto;
      unfold len; lia.
  - intros [d Hd]. apply (scan_loop_dangling s d Hd).
    lia.
Qed.

Lemma extract_lines_forever (s : jsstring) :
  extract_lines s = None -> forall fuel, scan_loop fuel s (0, []) = None.
Proof.
  intros H fuel. apply extract_lines_none in H as [d Hd].
  apply (scan_loop_dangling s d Hd). lia.
Qed.

(** A run of the loop that reaches its [break] does so within
    [length + 1] passes. *)
Lemma scan_loop_bounded (s : jsstring) (fuel : nat) (l : list jsstring) :
  scan_loop fuel s (0, []) = Some l -> extract_lines s = Some l.
Proof.
  intros H. destruct (extract_lines s) as [l'|] eqn:E.
  - unfold extract_lines in E.
    pose proof (scan_loop_more s _ (Nat.max fuel (S (List.length s))) _ _ H
                  (Nat.le_max_l _ _)) as H1.
    pose proof (scan_loop_more s _ (Nat.max fuel (S (List.length s))) _ _ E
                  (Nat.le_max_r _ _)) as H2.
    congruence.
  - rewrite (extract_lines_forever s E fuel) in H. discriminate.
Qed.

End Scan.

(* ================================================================= *)
(** ** What no turn of the event loop changes *)

Module Frame.

#[local] Arguments str : simpl never.
#[local] Arguments _notifySubscribers : simpl never.
#[local] Arguments _disconnect : simpl never.
#[local] Arguments leave : simpl never.

(** From [Some (sys, effects) = Some (sys', effects')], the equation on the
    systems, used to replace [sys']. *)
Ltac system_of H :=
  apply (f_equal (option_map fst)) in H; cbn [option_map fst] in H;
  injection H as H; subst.

Ltac outcome_of H :=
  let H' := fresh H in
  pose proof H as H';
  apply (f_equal (option_map fst)) in H'; cbn [option_map fst] in H';
  apply (f_equal (option_map snd)) in H; cbn [option_map snd] in H;
  injection H' as H'; injection H as H; subst.

Ltac effects_of H :=
  apply (f_equal (option_map snd)) in H; cbn [option_map snd] in H;
  injection H as H; subst.

Lemma calls_app (a b : list Effect) : calls (a ++ b) = calls a ++ calls b.
Proof.
  induction a as [|e a IH]; simpl; auto.
  destruct e; simpl; rewrite ?IH; reflexivity.
Qed.

Lemma calls_notify (m : RemoteSSESubscribable) (state : SSEClient) :
  calls (_notifySubscribers m state)
  = List.map (fun s => (s, state)) (subscribers m).
Proof.
  unfold _notifySubscribers.
  induction (subscribers m) as [|s l IH]; simpl; congruence.
Qed.

Lemma calls_resume (c : Caller) (m : RemoteSSESubscribable) :
  calls (resume c m) = [].
Proof. destruct c; reflexivity. Qed.

Lemma notify_nobody (m : RemoteSSESubscribable) (state : SSEClient) :
  subscribers m = [] -> _notifySubscribers m state = [].
Proof. unfold _notifySubscribers. now intros ->. Qed.

Lemma returns_app (a b : list Effect) :
  returns (a ++ b) = returns a ++ returns b.
Proof.
  induction a as [|e a IH]; simpl; auto.
  destruct e; simpl; rewrite ?IH; reflexivity.
Qed.

Lemma returns_notify (m : RemoteSSESubscribable) (state : SSEClient) :
  returns (_notifySubscribers m state) = [].
Proof.
  unfold _notifySubscribers. induction (subscribers m); simpl; auto.
Qed.

Lemma returns_disconnect (m : RemoteSSESubscribable) :
  returns (_disconnect m) = [].
Proof.
  unfold _disconnect. destruct (reader m); simpl; auto using returns_notify.
Qed.

Lemma returns_leave m c thrown :
  returns (leave m c thrown) = returns (resume c m).
Proof.
  unfold leave, catch_block, finally_block.
  destruct thrown; simpl; now rewrite !returns_app, !returns_notify.
Qed.

Lemma calls_leave_nobody m c thrown :
  subscribers m = [] -> calls (leave m c thrown) = [].
Proof.
  intros Hs. unfold leave, catch_block, finally_block.
  destruct thrown; simpl;
    now rewrite !calls_app, !calls_notify, calls_resume, Hs.
Qed.

Lemma calls_disconnect_nobody m :
  subscribers m = [] -> calls (_disconnect m) = [].
Proof.
  intros Hs. unfold _disconnect.
  destruct (reader m); simpl; [now rewrite calls_notify, Hs|reflexivity].
Qed.

Section Messages.

Variable JSON_parse : jsstring -> option Json.value.

Lemma flat_notify_calls m objs :
  calls (flat_map
           (fun obj =>
              _notifySubscribers m
                (with_lastMessage (with_connected (client m) true) obj)) objs)
  = flat_map (fun obj => List.map (fun s => (s, message_state m obj))
                           (subscribers m)) objs.
Proof.
  induction objs as [|o objs IH]; simpl; auto.
  now rewrite calls_app, calls_notify, IH.
Qed.

Lemma flat_notify_returns m objs :
  returns (flat_map
             (fun obj =>
                _notifySubscribers m
                  (with_lastMessage (with_connected (client m) true) obj))
             objs) = [].
Proof.
  induction objs as [|o objs IH]; simpl; auto.
  now rewrite returns_app, returns_notify, IH.
Qed.

Lemma onMessage_returns m text effects :
  _onMessage JSON_parse m text = Some effects -> returns effects = [].
Proof.
  unfold _onMessage, _extractFromSSE.
  destruct (extract_lines text) as [dataLines|]; [|discriminate].
  destruct (parse_lines JSON_parse dataLines); intros [= <-];
    cbn [returns flat_map app];
    rewrite ?returns_app, ?returns_notify, ?flat_notify_returns; reflexivity.
Qed.

Lemma onMessage_calls_nobody m text effects :
  subscribers m = [] ->
  _onMessage JSON_parse m text = Some effects -> calls effects = [].
Proof.
  intros Hs. unfold _onMessage, _extractFromSSE.
  destruct (extract_lines text) as [dataLines|]; [|discriminate].
  destruct (parse_lines JSON_parse dataLines) as [objs|]; intros [= <-];
    cbn [calls flat_map app];
    rewrite ?calls_app, ?calls_notify, ?flat_notify_calls, ?Hs.
  - induction objs; simpl; auto.
  - reflexivity.
Qed.

End Messages.

Lemma same_refl sys : Same sys sys.
Proof. split; reflexivity. Qed.

Lemma same_trans a b c : Same a b -> Same b c -> Same a c.
Proof. intros [] []; split; congruence. Qed.

Lemma next_read_same sys k c : Same sys (fst (next_read sys k c)).
Proof. unfold next_read. destruct (reader (manager sys)); split; reflexivity. Qed.

Lemma connect_same sys c : Same sys (fst (fst (_connect sys c))).
Proof.
  unfold _connect. destruct (_ <=? _)%nat; split; reflexivity.
Qed.

Lemma subscribe_same sys s : Same sys (fst (subscribe sys s)).
Proof.
  unfold subscribe. cbn [reader with_subscribers].
  destruct (reader (manager sys)); [split; reflexivity|].
  unfold _connect. cbn [manager url with_subscribers].
  destruct (_ <=? _)%nat; split; reflexivity.
Qed.

Lemma reconnect_same sys : Same sys (fst (reconnect_closure sys)).
Proof.
  unfold reconnect_closure, _connect.
  destruct (_ <=? _)%nat; split; reflexivity.
Qed.

Section Turns.

Variable JSON_parse : jsstring -> option Json.value.

(** No turn assigns [this.url] or [this.client]. *)
Lemma step_same sys i sys' effects :
  step JSON_parse sys i = Some (sys', effects) -> Same sys sys'.
Proof.
  unfold step. destruct i as [s|s| |k result|k result].
  - intros H; system_of H. apply subscribe_same.
  - intros H; system_of H. split; reflexivity.
  - intros H; system_of H. apply reconnect_same.
  - destruct (nth_error (tasks sys) k) as [[c [|r]]|];
      try (intros H; system_of H; apply same_refl).
    destruct result as [[r|]|message]; intros H; system_of H;
      split; reflexivity.
  - destruct (nth_error (tasks sys) k) as [[c [|r]]|];
      try (intros H; system_of H; apply same_refl).
    destruct result as [text| |message];
      try (intros H; system_of H; split; reflexivity).
    destruct (_onMessage JSON_parse (manager sys) text);
      [|intros H; system_of H; split; reflexivity].
    pose proof (next_read_same sys k c) as Hn.
    destruct (next_read sys k c). intros H; system_of H. exact Hn.
Qed.

Lemma run_same inputs : forall sys sys' effects,
  run JSON_parse sys inputs = Some (sys', effects) -> Same sys sys'.
Proof.
  induction inputs as [|i rest IH]; intros sys sys' effects; simpl.
  - intros H; system_of H. apply same_refl.
  - destruct (step JSON_parse sys i) as [[sys1 e1]|] eqn:E; [|discriminate].
    destruct (run JSON_parse sys1 rest) as [[sys2 e2]|] eqn:R; [|discriminate].
    intros H; system_of H.
    eapply same_trans; [eapply step_same|eapply IH]; eauto.
Qed.

(** The reader field is assigned in one place, and never cleared. *)
Lemma step_reader sys i sys' effects r :
  step JSON_parse sys i = Some (sys', effects) ->
  reader (manager sys) = Some r ->
  exists r', reader (manager sys') = Some r'.
Proof.
  unfold step. destruct i as [s|s| |k result|k result]; intros H Hr.
  - system_of H. exists r. unfold subscribe. cbn [reader with_subscribers].
    rewrite Hr. exact Hr.
  - system_of H. exists r. exact Hr.
  - system_of H. exists r. unfold reconnect_closure, _connect.
    destruct (_ <=? _)%nat; exact Hr.
  - destruct (nth_error (tasks sys) k) as [[c [|r0]]|];
      try (system_of H; exists r; exact Hr).
    destruct result as [[r1|]|message]; system_of H;
      [exists r1; reflexivity|exists r; exact Hr|exists r; exact Hr].
  - destruct (nth_error (tasks sys) k) as [[c [|r0]]|];
      try (system_of H; exists r; exact Hr).
    destruct result as [text| |message];
      try (system_of H; exists r; exact Hr).
    destruct (_onMessage JSON_parse (manager sys) text);
      [|system_of H; exists r; exact Hr].
    unfold next_read in H. rewrite Hr in H. system_of H. exists r. exact Hr.
Qed.

Lemma run_reader inputs : forall sys sys' effects r,
  run JSON_parse sys inputs = Some (sys', effects) ->
  reader (manager sys) = Some r ->
  exists r', reader (manager sys') = Some r'.
Proof.
  induction inputs as [|i rest IH]; intros sys sys' effects r; simpl.
  - intros H Hr; system_of H. eauto.
  - destruct (step JSON_parse sys i) as [[sys1 e1]|] eqn:E; [|discriminate].
    destruct (run JSON_parse sys1 rest) as [[sys2 e2]|] eqn:R; [|discriminate].
    intros H Hr; system_of H.
    destruct (step_reader _ _ _ _ _ E Hr) as [r1 Hr1]. eauto.
Qed.

(** A promise of [subscribe] resolves to the stored client record. *)
Lemma step_returns sys i sys' effects :
  step JSON_parse sys i = Some (sys', effects) ->
  forall s v, In (s, v) (returns effects) -> v = client (manager sys).
Proof.
  unfold step. destruct i as [s0|s0| |k result|k result]; intros H s v.
  - effects_of H.
    unfold subscribe, _connect. cbn [reader with_subscribers manager url].
    destruct (reader (manager sys)); [simpl; intuition congruence|].
    destruct (_ <=? _)%nat; simpl; intuition congruence.
  - effects_of H. unfold unsubscribe. cbn [snd].
    destruct (_ =? _)%nat; [rewrite returns_disconnect|]; simpl; tauto.
  - effects_of H. unfold reconnect_closure, _connect.
    destruct (_ <=? _)%nat; cbn [snd]; rewrite returns_app, returns_disconnect;
      simpl; tauto.
  - destruct (nth_error (tasks sys) k) as [[c [|r0]]|];
      try (effects_of H; simpl; tauto).
    destruct result as [[r1|]|message]; effects_of H;
      rewrite ?returns_leave; destruct c; simpl; intuition congruence.
  - destruct (nth_error (tasks sys) k) as [[c [|r0]]|];
      try (effects_of H; simpl; tauto).
    destruct result as [text| |message].
    + destruct (_onMessage JSON_parse (manager sys) text) as [e|] eqn:E;
        [|effects_of H; rewrite returns_leave; destruct c; simpl;
          intuition congruence].
      unfold next_read in H.
      destruct (reader (manager sys)); effects_of H;
        rewrite returns_app, (onMessage_returns _ _ _ _ E), ?returns_leave;
        destruct c; simpl; intuition congruence.
    + effects_of H. cbn [returns]. rewrite returns_leave.
      destruct c; simpl; intuition congruence.
    + effects_of H. rewrite returns_leave.
      destruct c; simpl; intuition congruence.
Qed.

Lemma run_returns inputs : forall sys sys' effects,
  run JSON_parse sys inputs = Some (sys', effects) ->
  forall s v, In (s, v) (returns effects) -> v = client (manager sys).
Proof.
  induction inputs as [|i rest IH]; intros sys sys' effects; simpl.
  - intros [= _ <-]. simpl. tauto.
  - destruct (step JSON_parse sys i) as [[sys1 e1]|] eqn:E; [|discriminate].
    destruct (run JSON_parse sys1 rest) as [[sys2 e2]|] eqn:R; [|discriminate].
    intros [= _ <-] s v. rewrite returns_app, in_app_iff. intros [Hin|Hin].
    + eapply step_returns; eauto.
    + rewrite <- (same_client _ _ (step_same _ _ _ _ E)).
      eapply IH; eauto.
Qed.

(** With nobody subscribed, and until somebody subscribes, no callback is
    invoked. *)
Lemma step_quiet sys i sys' effects :
  subscribers (manager sys) = [] -> is_subscribe i = false ->
  step JSON_parse sys i = Some (sys', effects) ->
  subscribers (manager sys') = [] /\ calls effects = [].
Proof.
  intros Hs Hi. unfold step.
  destruct i as [s0|s0| |k result|k result]; [discriminate| | | |]; intros H.
  - outcome_of H. unfold unsubscribe. simpl.
    rewrite Hs. simpl. split; [reflexivity|].
    apply calls_disconnect_nobody. reflexivity.
  - outcome_of H. unfold reconnect_closure, _connect.
    destruct (_ <=? _)%nat; simpl;
      rewrite ?calls_app, (calls_disconnect_nobody _ Hs); auto.
  - destruct (nth_error (tasks sys) k) as [[c [|r0]]|];
      try (outcome_of H; auto).
    destruct result as [[r1|]|message]; outcome_of H; split; auto;
      try apply calls_leave_nobody; auto.
  - destruct (nth_error (tasks sys) k) as [[c [|r0]]|];
      try (outcome_of H; auto).
    destruct result as [text| |message].
    + destruct (_onMessage JSON_parse (manager sys) text) as [e|] eqn:E;
        [|outcome_of H; split; auto; apply calls_leave_nobody; auto].
      unfold next_read in H.
      destruct (reader (manager sys)); outcome_of H; split; auto;
        rewrite calls_app, (onMessage_calls_nobody _ _ _ _ Hs E); auto.
      apply calls_leave_nobody; auto.
    + outcome_of H. split; auto.
      change (calls (leave (manager sys) c None) = []).
      apply calls_leave_nobody; auto.
    + outcome_of H. split; auto. apply calls_leave_nobody; auto.
Qed.

Lemma run_quiet inputs : forall sys sys' effects,
  subscribers (manager sys) = [] ->
  forallb (fun i => negb (is_subscribe i)) inputs = true ->
  run JSON_parse sys inputs = Some (sys', effects) ->
  subscribers (manager sys') = [] /\ calls effects = [].
Proof.
  induction inputs as [|i rest IH]; intros sys sys' effects Hs Hall; simpl.
  - intros [= <- <-]. auto.
  - simpl in Hall. apply andb_true_iff in Hall as [Hi Hrest].
    apply negb_true_iff in Hi.
    destruct (step JSON_parse sys i) as [[sys1 e1]|] eqn:E; [|discriminate].
    destruct (run JSON_parse sys1 rest) as [[sys2 e2]|] eqn:R; [|discriminate].
    intros [= <- <-].
    destruct (step_quiet _ _ _ _ Hs Hi E) as [Hs1 Hc1].
    destruct (IH _ _ _ Hs1 Hrest R) as [Hs2 Hc2].
    rewrite calls_app, Hc1, Hc2. auto.
Qed.

Lemma in_remove_nth {A} (k : nat) (l : list A) (x : A) :
  In x (remove_nth k l) -> In x l.
Proof.
  unfold remove_nth. rewrite in_app_iff. intros [H|H].
  - rewrite <- (firstn_skipn k l). apply in_or_app. now left.
  - rewrite <- (firstn_skipn (S k) l). apply in_or_app. now right.
Qed.

Lemma in_replace_nth {A} (k : nat) (y : A) (l : list A) (x : A) :
  In x (replace_nth k y l) -> x = y \/ In x l.
Proof.
  unfold replace_nth. rewrite in_app_iff. intros [H|[H|H]]; auto.
  - right. rewrite <- (firstn_skipn k l). apply in_or_app. now left.
  - right. rewrite <- (firstn_skipn (S k) l). apply in_or_app. now right.
Qed.

(** A read loop is only ever suspended on the reader its manager holds, so
    the [read()] at the top of the loop always has a reader to call. *)
Lemma step_loops sys i sys' effects :
  loops_have_reader sys ->
  step JSON_parse sys i = Some (sys', effects) ->
  loops_have_reader sys'.
Proof.
  unfold loops_have_reader, step. intros Inv H.
  assert (forall k c r, In (mkTask c (await_read r))
                          (remove_nth k (tasks sys)) ->
                        reader (manager sys) <> None) as Inv''.
  { intros k c r Hin. apply in_remove_nth in Hin. eapply Inv; eauto. }
  destruct i as [s|s| |k result|k result].
  - system_of H. unfold subscribe, _connect. simpl.
    destruct (reader (manager sys)) eqn:Hr in |- *; simpl;
      [rewrite Hr; discriminate|].
    destruct (_ <=? _)%nat; simpl; intros c r Hin.
    + eapply Inv; eauto.
    + apply in_app_iff in Hin as [Hin|[Hin|[]]]; [|discriminate].
      eapply Inv; eauto.
  - system_of H. simpl. exact Inv.
  - system_of H. unfold reconnect_closure, _connect.
    destruct (_ <=? _)%nat; simpl; [exact Inv|]. intros c r Hin.
    apply in_app_iff in Hin as [Hin|[Hin|[]]]; [|discriminate].
    eapply Inv; eauto.
  - destruct (nth_error (tasks sys) k) as [[c [|r0]]|];
      try (system_of H; exact Inv).
    destruct result as [[r1|]|message]; system_of H; simpl.
    + intros; discriminate.
    + apply Inv''.
    + apply Inv''.
  - destruct (nth_error (tasks sys) k) as [[c [|r0]]|];
      try (system_of H; exact Inv).
    destruct result as [text| |message].
    + destruct (_onMessage JSON_parse (manager sys) text);
        [|system_of H; simpl; apply Inv''].
      unfold next_read in H.
      destruct (reader (manager sys)) eqn:Hr in H; system_of H; simpl.
      * intros. rewrite Hr. discriminate.
      * apply Inv''.
    + system_of H. simpl. apply Inv''.
    + system_of H. simpl. apply Inv''.
Qed.

Lemma run_loops inputs : forall sys sys' effects,
  loops_have_reader sys ->
  run JSON_parse sys inputs = Some (sys', effects) ->
  loops_have_reader sys'.
Proof.
  induction inputs as [|i rest IH]; intros sys sys' effects Inv; simpl.
  - intros H; system_of H. exact Inv.
  - destruct (step JSON_parse sys i) as [[sys1 e1]|] eqn:E; [|discriminate].
    destruct (run JSON_parse sys1 rest) as [[sys2 e2]|] eqn:R; [|discriminate].
    intros H; system_of H. eapply IH; [|exact R]. eapply step_loops; eauto.
Qed.

(** Every turn completes. *)
Lemma step_total sys i : exists sys' effects,
  step JSON_parse sys i = Some (sys', effects).
Proof.
  unfold step. destruct i as [s|s| |k result|k result].
  - destruct (subscribe sys s); eauto.
  - destruct (unsubscribe sys s); eauto.
  - destruct (reconnect_closure sys); eauto.
  - destruct (nth_error (tasks sys) k) as [[c [|r]]|]; eauto.
    destruct result as [[r|]|message]; eauto.
    destruct (next_read _ k c); eauto.
  - destruct (nth_error (tasks sys) k) as [[c [|r]]|]; eauto.
    destruct result as [text| |message]; eauto.
    destruct (_onMessage JSON_parse (manager sys) text); eauto.
    destruct (next_read sys k c); eauto.
Qed.

Lemma run_total inputs : forall sys, exists sys' effects,
  run JSON_parse sys inputs = Some (sys', effects).
Proof.
  induction inputs as [|i rest IH]; intros sys; cbn [run]; eauto.
  destruct (step_total sys i) as (sys1 & e1 & ->).
  destruct (IH sys1) as (sys2 & e2 & ->). eauto.
Qed.

(** A chunk leaves the read loop exactly when its marker loop does not
    reach its [break]. *)
Lemma onMessage_none m text :
  _onMessage JSON_parse m text = None <-> extract_lines text = None.
Proof.
  unfold _onMessage, _extractFromSSE.
  destruct (extract_lines text) as [dataLines|]; [|tauto].
  destruct (parse_lines JSON_parse dataLines); split; discriminate.
Qed.

(** The stored client record of a manager is the one of its constructor. *)
Lemma run_client u inputs sys log :
  run JSON_parse (boot u) inputs = Some (sys, log) ->
  client (manager sys) = with_reconnect defaultSSEClient reconnect_manager.
Proof.
  intros Hrun. exact (same_client _ _ (run_same _ _ _ _ Hrun)).
Qed.

End Turns.

End Frame.

(* ================================================================= *)
(** ** The frame decoder *)

Section DecoderProperties.

Variable JSON_parse : jsstring -> option Json.value.



(** C5.  On the chunk made of the frames [data: {"a":1}] and
    [data: {"b":2}], each ended by a newline, the decoder extracts the two
    payloads and returns the two parsed messages in that order, and
    [_onMessage] makes two broadcasts: every subscriber is invoked with the
    state of the first message, connected, and then every subscriber with
    the state of the second. *)
Theorem two_frames_two_broadcasts
  (m : RemoteSSESubscribable) (va vb : Json.value) :
  JSON_parse payload_a = Some va ->
  JSON_parse payload_b = Some vb ->
  let state := fun v =>
    {| clientId := clientId (client m);
       connected := true;
       lastMessage := Some v;
       error := error (client m);
       reconnect := reconnect (client m) |} in
  extract_lines two_frames = Some [payload_a; payload_b]
  /\ _extractFromSSE JSON_parse m two_frames = Some ([va; vb], [])
  /\ _onMessage JSON_parse m two_frames
     = Some (List.map (fun s => ECall s (state va)) (subscribers m)
             ++ List.map (fun s => ECall s (state vb)) (subscribers m))
  /\ (forall effects,
        _onMessage JSON_parse m two_frames = Some effects ->
        calls effects
        = List.map (fun s => (s, state va)) (subscribers m)
          ++ List.map (fun s => (s, state vb)) (subscribers m)).
Proof.
  intros Ha Hb state.
  assert (extract_lines two_frames = Some [payload_a; payload_b]) as Hlines
    by (vm_compute; reflexivity).
  assert (_extractFromSSE JSON_parse m two_frames = Some ([va; vb], []))
    as Hextract.
  { unfold _extractFromSSE. rewrite Hlines. simpl. now rewrite Ha, Hb. }
  assert (_onMessage JSON_parse m two_frames
          = Some (List.map (fun s => ECall s (state va)) (subscribers m)
                  ++ List.map (fun s => ECall s (state vb)) (subscribers m)))
    as Hmessage.
  { unfold _onMessage. rewrite Hextract. cbn [flat_map app].
    now rewrite app_nil_r. }
  repeat split; auto.
  intros effects He. rewrite Hmessage in He. injection He as <-.
  rewrite Frame.calls_app. f_equal; clear;
    induction (subscribers m) as [|s l IH]; simpl; congruence.
Qed.

End DecoderProperties.


Lemma two_frames_two_broadcasts_witness :
  Json.parse payload_a = Some object_a
  /\ Json.parse payload_b = Some object_b
  /\ let state := fun v =>
       {| clientId := None;
          connected := true;
          lastMessage := Some v;
          error := None;
          reconnect := reconnect_manager |} in
     extract_lines two_frames = Some [payload_a; payload_b]
     /\ _extractFromSSE Json.parse audience two_frames
        = Some ([object_a; object_b], [])
     /\ _onMessage Json.parse audience two_frames
        = Some [ECall 0%nat (state object_a); ECall 1%nat (state object_a);
                ECall 0%nat (state object_b); ECall 1%nat (state object_b)]
     /\ (forall effects,
           _onMessage Json.parse audience two_frames = Some effects ->
           calls effects
           = [(0%nat, state object_a); (1%nat, state object_a);
              (0%nat, state object_b); (1%nat, state object_b)]).
Proof.
  split; [vm_compute; reflexivity|].
  split; [vm_compute; reflexivity|].
  apply (two_frames_two_broadcasts Json.parse audience object_a object_b);
    vm_compute; reflexivity.
Defined.

(** The two broadcasts of [two_frames], as the two subscribers of
    [audience] see them. *)
Example two_frames_calls :
  option_map calls (_onMessage Json.parse audience two_frames)
  = Some [(0%nat, message_state audience object_a);
          (1%nat, message_state audience object_a);
          (0%nat, message_state audience object_b);
          (1%nat, message_state audience object_b)].
Proof. vm_compute. reflexivity. Qed.

(** C7.  On the chunk [data: {}], whose marker no newline follows, the
    marker loop of [_extractFromSSE] does not reach its [break], whatever
    the number of passes: a pass pushes the payload without its last
    character ([slice(6, -1)]) and sets [startIndex] to [-1], from where the
    next pass finds the same marker again.  [_extractFromSSE] returns
    nothing on that chunk. *)
Theorem dangling_marker_never_returns :
  scan_body dangling_frame (0, []) = inl (-1, [str "{"])
  /\ scan_body dangling_frame (-1, [str "{"]) = inl (-1, [str "{"; str "{"])
  /\ (forall fuel, scan_loop fuel dangling_frame (0, []) = None)
  /\ forall JSON_parse m, _extractFromSSE JSON_parse m dangling_frame = None.
Proof.
  assert (extract_lines dangling_frame = None) as Hnone
    by (vm_compute; reflexivity).
  split; [vm_compute; reflexivity|].
  split; [vm_compute; reflexivity|].
  split.
  - apply Scan.extract_lines_forever. exact Hnone.
  - intros JSON_parse m. unfold _extractFromSSE. now rewrite Hnone.
Qed.

(* ================================================================= *)
(** ** The connection manager *)

Section ManagerProperties.

Variable JSON_parse : jsstring -> option Json.value.

(** C9.  Whatever has happened to a manager since its construction
    (subscriptions, connections, messages, errors, disconnections), its
    stored client record is the one the constructor built: not connected,
    without message and without error.  Every promise of [subscribe] has
    resolved to that record, and the getters [initial] and [current] answer
    [defaultSSEClient]. *)
Theorem client_record_never_changes
  (u : jsstring) (inputs : list Input) (sys : System) (log : list Effect) :
  run JSON_parse (boot u) inputs = Some (sys, log) ->
  client (manager sys) = with_reconnect defaultSSEClient reconnect_manager
  /\ connected (client (manager sys)) = false
  /\ lastMessage (client (manager sys)) = None
  /\ error (client (manager sys)) = None
  /\ (forall s v, In (s, v) (returns log) ->
        v = with_reconnect defaultSSEClient reconnect_manager)
  /\ initial (manager sys) = defaultSSEClient
  /\ current (manager sys) = defaultSSEClient.
Proof.
  intros Hrun.
  rewrite (Frame.run_client _ _ _ _ _ Hrun). repeat split; auto.
  intros s v Hin. apply (Frame.run_returns _ _ _ _ _ Hrun s v Hin).
Qed.

(** C1, as the code has it.  A read loop of a manager is left on a
    [read()] that reports the end of the stream (the server closed it, or
    the reader was cancelled), on one that throws, and on a chunk whose
    handling throws (its marker loop never reaches its [break]); on any
    other chunk the loop goes on with the next [read()].  Whenever the loop
    is left, the last act of the turn is a broadcast to every subscriber of
    a state that is not connected.  That state is spread from the stored
    client record, which no earlier broadcast has written to: it carries no
    message and no error. *)
Theorem final_broadcast_on_exit
  (u : jsstring) (inputs : list Input) (sys : System) (log : list Effect)
  (k : nat) (c : Caller) (r : ReaderId) (result : ReadResult) :
  run JSON_parse (boot u) inputs = Some (sys, log) ->
  nth_error (tasks sys) k = Some (mkTask c (await_read r)) ->
  let final := with_connected (client (manager sys)) false in
  (exits result = true ->
   exists before,
     step JSON_parse sys (read_settles k result)
     = Some ({| manager := manager sys; tasks := remove_nth k (tasks sys) |},
             before
             ++ List.map (fun s => ECall s final) (subscribers (manager sys))
             ++ resume c (manager sys)))
  /\ (exits result = false ->
      exists r' effects,
        step JSON_parse sys (read_settles k result)
        = Some ({| manager := manager sys;
                   tasks := replace_nth k (mkTask c (await_read r'))
                              (tasks sys) |},
                effects ++ [ERead r']))
  /\ connected final = false
  /\ lastMessage final = None
  /\ error final = None.
Proof.
  intros Hrun Htask final. subst final.
  split; [|split; [|rewrite (Frame.run_client _ _ _ _ _ Hrun); repeat split]].
  - intros Hexit. unfold step. rewrite Htask.
    destruct result as [text| |message].
    + cbn [exits] in Hexit.
      destruct (extract_lines text) eqn:L; [discriminate|].
      apply (Frame.onMessage_none JSON_parse (manager sys)) in L. rewrite L.
      exists (catch_block (manager sys) array_overflow). reflexivity.
    + exists [EConsoleLog (str "Reader is done")]. reflexivity.
    + exists (catch_block (manager sys) message). reflexivity.
  - intros Hstay. destruct result as [text| |message]; try discriminate.
    assert (loops_have_reader sys) as Inv.
    { eapply Frame.run_loops; [|exact Hrun]. intros c' r' []. }
    pose proof (Inv c r (nth_error_In _ _ Htask)) as Hr.
    destruct (reader (manager sys)) as [r'|] eqn:E; [|congruence].
    unfold step. rewrite Htask.
    destruct (_onMessage JSON_parse (manager sys) text) as [effects|] eqn:M.
    + unfold next_read. rewrite E. exists r', effects. reflexivity.
    + apply Frame.onMessage_none in M. cbn [exits] in Hstay.
      rewrite M in Hstay. discriminate.
Qed.

(** C10.  Once the reader field holds a reader, no sequence of turns
    (unsubscriptions and disconnections among them) clears it, and a call of
    [subscribe] after them registers its callback and returns without
    issuing a request or leaving a connection attempt behind. *)
Theorem held_reader_stops_connecting
  (sys : System) (r : ReaderId) (inputs : list Input)
  (sys' : System) (log : list Effect) (s : Subscriber) :
  reader (manager sys) = Some r ->
  run JSON_parse sys inputs = Some (sys', log) ->
  (exists r', reader (manager sys') = Some r')
  /\ In s (subscribers (manager (fst (subscribe sys' s))))
  /\ tasks (fst (subscribe sys' s)) = tasks sys'
  /\ snd (subscribe sys' s) = [EReturn s (client (manager sys'))].
Proof.
  intros Hr Hrun.
  destruct (Frame.run_reader _ _ _ _ _ r Hrun Hr) as [r' Hr'].
  split; [eauto|].
  unfold subscribe. cbn [reader with_subscribers]. rewrite Hr'.
  cbn [fst snd manager tasks subscribers with_subscribers resume client].
  repeat split; auto.
  unfold set_add.
  destruct (existsb (Nat.eqb s) (subscribers (manager sys'))) eqn:E.
  - apply existsb_exists in E as (x & Hin & Heq).
    apply Nat.eqb_eq in Heq. now subst x.
  - apply in_or_app. right. now left.
Qed.

(** C6.  When a reader is held and [s] is the only subscriber, the
    [unsubscribe] closure of [s] empties the set and cancels the reader.
    From then on, and as long as nobody subscribes, no callback is invoked,
    whatever the stream delivers. *)
Theorem last_unsubscribe_cancels
  (sys : System) (s : Subscriber) (r : ReaderId) :
  subscribers (manager sys) = [s] ->
  reader (manager sys) = Some r ->
  subscribers (manager (fst (unsubscribe sys s))) = []
  /\ snd (unsubscribe sys s) = [ECancel r]
  /\ forall inputs sys' log,
       forallb (fun i => negb (is_subscribe i)) inputs = true ->
       run JSON_parse (fst (unsubscribe sys s)) inputs = Some (sys', log) ->
       subscribers (manager sys') = [] /\ calls log = [].
Proof.
  intros Hs Hr.
  assert (subscribers (manager (fst (unsubscribe sys s))) = []) as Hempty.
  { unfold unsubscribe. simpl. rewrite Hs. simpl. now rewrite Nat.eqb_refl. }
  split; [exact Hempty|]. split.
  - unfold unsubscribe. simpl. rewrite Hs. simpl. rewrite Nat.eqb_refl. simpl.
    unfold _disconnect, _notifySubscribers. simpl. now rewrite Hr.
  - intros inputs sys' log Hall Hrun.
    exact (Frame.run_quiet _ _ _ _ _ Hempty Hall Hrun).
Qed.

Lemma nth_error_last {A} (l : list A) (x : A) :
  nth_error (l ++ [x]) (List.length l) = Some x.
Proof. induction l; simpl; auto. Qed.

Lemma replace_nth_last {A} (l : list A) (x y : A) :
  replace_nth (List.length l) y (l ++ [x]) = l ++ [y].
Proof.
  unfold replace_nth.
  rewrite firstn_app, Nat.sub_diag, firstn_all, skipn_all2, app_nil_r;
    [reflexivity|].
  rewrite length_app. simpl. lia.
Qed.

(** C8.  [_connect] on a URL of at most one character returns at once: no
    request, no effect, the system as it was.  On a longer URL it issues a
    GET request for that URL and waits for it; when the response arrives
    with a body, the reader of that body is stored and the read loop is
    entered with a first [read()]. *)
Theorem connect_guard (sys : System) (c : Caller) :
  ((List.length (url (manager sys)) <= 1)%nat ->
   _connect sys c = (sys, [], true))
  /\ ((1 < List.length (url (manager sys)))%nat ->
      let waiting :=
        {| manager := manager sys;
           tasks := tasks sys ++ [mkTask c await_fetch] |} in
      _connect sys c = (waiting, [EFetch (url (manager sys))], false)
      /\ forall r,
           step JSON_parse waiting
             (fetch_settles (List.length (tasks sys)) (response (Some r)))
           = Some ({| manager := with_reader (manager sys) r;
                      tasks := tasks sys ++ [mkTask c (await_read r)] |},
                   [ERead r])).
Proof.
  split; intros Hlen.
  - unfold _connect. apply Nat.leb_le in Hlen. now rewrite Hlen.
  - intros waiting. split.
    + unfold _connect. apply Nat.leb_gt in Hlen. now rewrite Hlen.
    + intros r. unfold step, waiting. cbn [tasks manager].
      rewrite nth_error_last. unfold next_read.
      cbn [manager reader with_reader tasks].
      now rewrite replace_nth_last.
Qed.

(** C4, as the code has it.  The [reconnect] closure first disconnects,
    which cancels the reader and broadcasts a state that is not connected
    when a reader is held and does nothing when none is, and then connects,
    which issues a request when the URL has more than one character and
    does nothing otherwise.  The manager's fields are left as they were. *)
Theorem reconnect_effects (sys : System) :
  let m := manager sys in
  snd (reconnect_closure sys)
  = match reader m with
    | Some r =>
        ECancel r
        :: List.map (fun s => ECall s (with_connected (client m) false))
             (subscribers m)
    | None => []
    end
    ++ (if (List.length (url m) <=? 1)%nat then [] else [EFetch (url m)])
  /\ manager (fst (reconnect_closure sys)) = m
  /\ tasks (fst (reconnect_closure sys))
     = tasks sys
       ++ (if (List.length (url m) <=? 1)%nat then []
           else [mkTask by_reconnect await_fetch]).
Proof.
  unfold reconnect_closure, _connect, _disconnect, _notifySubscribers.
  destruct (_ <=? _)%nat; cbn [fst snd manager tasks];
    rewrite ?app_nil_r; auto.
Qed.

End ManagerProperties.

(** [open_session] does lead to [streaming], and has broadcast the
    message. *)
Example open_session_streams :
  option_map fst (run Json.parse (boot some_url) open_session) = Some streaming
  /\ option_map (fun out => calls (snd out))
       (run Json.parse (boot some_url) open_session)
     = Some [(0%nat, message_state (constructor some_url)
                       (Json.Number (str "1")))].
Proof. split; vm_compute; reflexivity. Qed.

Lemma client_record_never_changes_witness :
  exists sys log,
    run Json.parse (boot some_url) (closed_session ++ failed_session)
    = Some (sys, log)
    /\ client (manager sys) = with_reconnect defaultSSEClient reconnect_manager
    /\ connected (client (manager sys)) = false
    /\ lastMessage (client (manager sys)) = None
    /\ error (client (manager sys)) = None
    /\ (forall s v, In (s, v) (returns log) ->
          v = with_reconnect defaultSSEClient reconnect_manager)
    /\ initial (manager sys) = defaultSSEClient
    /\ current (manager sys) = defaultSSEClient.
Proof.
  eexists. eexists. split; [vm_compute; reflexivity|].
  eapply (client_record_never_changes Json.parse some_url
            (closed_session ++ failed_session)).
  vm_compute; reflexivity.
Defined.

Lemma final_broadcast_on_exit_witness :
  run Json.parse (boot some_url) open_session
  = Some (streaming,
          [EFetch some_url; ERead 7%nat;
           ECall 0%nat (message_state (constructor some_url)
                          (Json.Number (str "1")));
           ERead 7%nat])
  /\ nth_error (tasks streaming) 0
     = Some (mkTask (by_subscribe 0%nat) (await_read 7%nat))
  /\ exits (chunk dangling_frame) = true
  /\ let final := with_connected (client (manager streaming)) false in
     (exists before,
        step Json.parse streaming (read_settles 0 (chunk dangling_frame))
        = Some ({| manager := manager streaming;
                   tasks := remove_nth 0 (tasks streaming) |},
                before
                ++ List.map (fun s => ECall s final)
                     (subscribers (manager streaming))
                ++ resume (by_subscribe 0%nat) (manager streaming)))
     /\ connected final = false
     /\ lastMessage final = None
     /\ error final = None.
Proof.
  split; [vm_compute; reflexivity|].
  split; [reflexivity|]. split; [vm_compute; reflexivity|].
  destruct (final_broadcast_on_exit Json.parse some_url open_session streaming
              [EFetch some_url; ERead 7%nat;
               ECall 0%nat (message_state (constructor some_url)
                              (Json.Number (str "1")));
               ERead 7%nat]
              0 (by_subscribe 0%nat) 7%nat (chunk dangling_frame))
    as (Hexit & _ & Hfields);
    [vm_compute; reflexivity|reflexivity|].
  split; [apply Hexit; vm_compute; reflexivity|exact Hfields].
Defined.

(** The read loop of [streaming] is left the same way on the end of the
    stream and on a failed [read()]. *)
Example streaming_exits :
  step Json.parse streaming (read_settles 0 done)
  = Some ({| manager := manager streaming; tasks := [] |},
          [EConsoleLog (str "Reader is done");
           ECall 0%nat (with_connected (client (manager streaming)) false);
           EReturn 0%nat (client (manager streaming))])
  /\ step Json.parse streaming (read_settles 0 (read_throws (str "reset")))
     = Some ({| manager := manager streaming; tasks := [] |},
             [EConsoleError (str "Error connecting to SSE:");
              ECall 0%nat
                (with_connected
                   (with_error (client (manager streaming))
                      (Some (str "reset"))) false);
              ECall 0%nat (with_connected (client (manager streaming)) false);
              EReturn 0%nat (client (manager streaming))]).
Proof. split; reflexivity. Qed.

(** C1 fails as stated.  In [closed_session] the broadcast of the message
    [1] is followed by the final broadcast, which carries no message; in
    [failed_session] the broadcast of the error is followed by the final
    broadcast, which carries no error. *)
Lemma final_broadcast_forgets_earlier_values :
  (exists sys log earlier final,
     run Json.parse (boot some_url) closed_session = Some (sys, log)
     /\ calls log = [(0%nat, earlier); (0%nat, final)]
     /\ lastMessage earlier = Some (Json.Number (str "1"))
     /\ connected final = false
     /\ lastMessage final = None)
  /\ (exists sys log earlier final,
        run Json.parse (boot some_url) failed_session = Some (sys, log)
        /\ calls log = [(0%nat, earlier); (0%nat, final)]
        /\ error earlier = Some (str "network error")
        /\ connected final = false
        /\ error final = None).
Proof.
  split; do 4 eexists;
    (split; [vm_compute; reflexivity|]);
    (split; [vm_compute; reflexivity|]);
    repeat split.
Qed.

Lemma held_reader_stops_connecting_witness :
  reader (manager streaming) = Some 7%nat
  /\ run Json.parse streaming [call_unsubscribe 0%nat]
     = Some ({| manager := with_subscribers (manager streaming) [];
                tasks := tasks streaming |},
             [ECancel 7%nat])
  /\ let idle := {| manager := with_subscribers (manager streaming) [];
                    tasks := tasks streaming |} in
     (exists r', reader (manager idle) = Some r')
     /\ In 1%nat (subscribers (manager (fst (subscribe idle 1%nat))))
     /\ tasks (fst (subscribe idle 1%nat)) = tasks idle
     /\ snd (subscribe idle 1%nat) = [EReturn 1%nat (client (manager idle))].
Proof.
  split; [reflexivity|]. split; [vm_compute; reflexivity|].
  apply (held_reader_stops_connecting Json.parse streaming 7%nat
           [call_unsubscribe 0%nat] _ [ECancel 7%nat] 1%nat);
    [reflexivity|vm_compute; reflexivity].
Defined.

Lemma last_unsubscribe_cancels_witness :
  subscribers (manager streaming) = [0%nat]
  /\ reader (manager streaming) = Some 7%nat
  /\ subscribers (manager (fst (unsubscribe streaming 0%nat))) = []
  /\ snd (unsubscribe streaming 0%nat) = [ECancel 7%nat]
  /\ option_map (fun out => calls (snd out))
       (run Json.parse (fst (unsubscribe streaming 0%nat))
          [read_settles 0 (chunk two_frames);
           read_settles 0 (chunk one_bad_frame);
           read_settles 0 done])
     = Some [].
Proof.
  split; [reflexivity|]. split; [reflexivity|].
  destruct (last_unsubscribe_cancels Json.parse streaming 0%nat 7%nat
              eq_refl eq_refl) as (Hempty & Hcancel & Hquiet).
  split; [exact Hempty|]. split; [exact Hcancel|].
  destruct (run Json.parse (fst (unsubscribe streaming 0%nat))
              [read_settles 0 (chunk two_frames);
               read_settles 0 (chunk one_bad_frame);
               read_settles 0 done]) as [[sys' log]|] eqn:Hrun.
  - destruct (Hquiet [read_settles 0 (chunk two_frames);
                      read_settles 0 (chunk one_bad_frame);
                      read_settles 0 done] sys' log eq_refl Hrun)
      as [_ Hcalls].
    simpl. now rewrite Hcalls.
  - vm_compute in Hrun. discriminate.
Defined.

Lemma connect_guard_witness :
  (List.length (url (manager (boot (str "x")))) <= 1)%nat
  /\ _connect (boot (str "x")) by_reconnect = (boot (str "x"), [], true)
  /\ (1 < List.length (url (manager (boot some_url))))%nat
  /\ let waiting :=
       {| manager := constructor some_url;
          tasks := [mkTask (by_subscribe 0%nat) await_fetch] |} in
     _connect (boot some_url) (by_subscribe 0%nat)
     = (waiting, [EFetch some_url], false)
     /\ forall r,
          step Json.parse waiting (fetch_settles 0 (response (Some r)))
          = Some ({| manager := with_reader (constructor some_url) r;
                     tasks := [mkTask (by_subscribe 0%nat) (await_read r)] |},
                  [ERead r]).
Proof.
  split; [vm_compute; lia|].
  split.
  - apply (connect_guard Json.parse (boot (str "x")) by_reconnect).
    vm_compute; lia.
  - split; [vm_compute; lia|].
    apply (connect_guard Json.parse (boot some_url) (by_subscribe 0%nat)).
    vm_compute; lia.
Defined.

(** C4 fails as stated.  A subscriber is registered and no reader has been
    obtained yet: [reconnect] invokes no callback, it only issues the
    request.  On a manager bound to a one-character URL it does nothing at
    all. *)
Lemma reconnect_before_connection_is_silent :
  (exists sys,
     option_map fst (run Json.parse (boot some_url) [call_subscribe 0%nat])
     = Some sys
     /\ subscribers (manager sys) = [0%nat]
     /\ reader (manager sys) = None
     /\ snd (reconnect_closure sys) = [EFetch some_url]
     /\ calls (snd (reconnect_closure sys)) = [])
  /\ reconnect_closure (boot (str "x")) = (boot (str "x"), []).
Proof.
  split; [|reflexivity].
  eexists. split; [vm_compute; reflexivity|].
  repeat split.
Qed.

(* ================================================================= *)
(** ** The process-wide holder *)

Lemma acquire_all_held (made : StatefulRemoteSubscribable) (n : nat) :
  forall us,
    acquire_all us {| statefulSubscribable := Some made; allocated := n |}
    = ({| statefulSubscribable := Some made; allocated := n |},
       List.map (fun _ => Some made) us).
Proof.
  induction us as [|u us IH]; [reflexivity|].
  cbn [acquire_all]. unfold useStatefulSubscribableSSE at 1.
  cbn [statefulSubscribable]. now rewrite IH.
Qed.

(** C3, as the code has it.  On an empty holder, [acquire] with a
    non-empty URL makes an instance bound to that URL; every later call,
    whatever its URL, returns that same instance and leaves the holder as it
    is.  [destroyAll] destroys that instance and empties the holder, after
    which [acquire] with a non-empty URL makes another instance, bound to
    the URL of that call. *)
Theorem holder_keeps_first_instance
  (h : Holder) (urlA urlC : jsstring) (us : list (option jsstring)) :
  statefulSubscribable h = None ->
  urlA <> [] ->
  urlC <> [] ->
  let first := {| ref := allocated h; bound_url := urlA |} in
  let h1 := fst (useStatefulSubscribableSSE (Some urlA) h) in
  let h2 := fst (destroyStatefulSubscribableSSE (fst (acquire_all us h1))) in
  snd (useStatefulSubscribableSSE (Some urlA) h) = Some first
  /\ acquire_all us h1 = (h1, List.map (fun _ => Some first) us)
  /\ snd (destroyStatefulSubscribableSSE (fst (acquire_all us h1)))
     = Some (ref first)
  /\ statefulSubscribable h2 = None
  /\ (exists second,
        snd (useStatefulSubscribableSSE (Some urlC) h2) = Some second
        /\ bound_url second = urlC
        /\ ref second <> ref first).
Proof.
  intros Hnone HA HC first h1 h2.
  assert (h1 = {| statefulSubscribable := Some first;
                 allocated := S (allocated h) |}) as Hh1.
  { unfold h1, useStatefulSubscribableSSE. rewrite Hnone.
    destruct urlA; [congruence|reflexivity]. }
  assert (acquire_all us h1 = (h1, List.map (fun _ => Some first) us)) as Hall
    by (rewrite Hh1; apply acquire_all_held).
  split.
  { unfold useStatefulSubscribableSSE. rewrite Hnone.
    destruct urlA; [congruence|reflexivity]. }
  split; [exact Hall|].
  unfold h2. rewrite Hall. cbn [fst]. rewrite Hh1.
  split; [reflexivity|]. split; [reflexivity|].
  exists {| ref := S (allocated h); bound_url := urlC |}.
  unfold useStatefulSubscribableSSE, destroyStatefulSubscribableSSE.
  cbn [fst snd statefulSubscribable allocated].
  destruct urlC; [congruence|].
  repeat split. simpl. lia.
Qed.

Lemma holder_keeps_first_instance_witness :
  statefulSubscribable fresh_holder = None
  /\ some_url <> []
  /\ str "wss://other" <> []
  /\ let first := {| ref := 0; bound_url := some_url |} in
     let us := [Some (str "wss://other"); None; Some []] in
     let h1 := fst (useStatefulSubscribableSSE (Some some_url) fresh_holder) in
     let h2 := fst (destroyStatefulSubscribableSSE (fst (acquire_all us h1))) in
     snd (useStatefulSubscribableSSE (Some some_url) fresh_holder) = Some first
     /\ acquire_all us h1 = (h1, List.map (fun _ => Some first) us)
     /\ snd (destroyStatefulSubscribableSSE (fst (acquire_all us h1)))
        = Some (ref first)
     /\ statefulSubscribable h2 = None
     /\ (exists second,
           snd (useStatefulSubscribableSSE (Some (str "wss://other")) h2)
           = Some second
           /\ bound_url second = str "wss://other"
           /\ ref second <> ref first).
Proof.
  split; [reflexivity|].
  split; [discriminate|].
  split; [discriminate|].
  apply (holder_keeps_first_instance fresh_holder some_url (str "wss://other")
           [Some (str "wss://other"); None; Some []]);
    [reflexivity|discriminate|discriminate].
Defined.

(** C3 fails as stated.  After [destroyAll], [acquire] with the empty URL,
    or with no URL, makes no instance: it returns [undefined] and leaves the
    holder empty. *)
Lemma acquire_without_url_makes_nothing :
  let h1 := fst (useStatefulSubscribableSSE (Some some_url) fresh_holder) in
  let h2 := fst (destroyStatefulSubscribableSSE h1) in
  snd (useStatefulSubscribableSSE (Some some_url) fresh_holder)
  = Some {| ref := 0; bound_url := some_url |}
  /\ useStatefulSubscribableSSE (Some []) h2 = (h2, None)
  /\ useStatefulSubscribableSSE None h2 = (h2, None).
Proof. repeat split. Qed.

(* ================================================================= *)
(** ** More on the frame decoder *)

Module Frames.
Import JSFacts.

Lemma search_here (p s : jsstring) (i : nat) :
  startsWith p s = true -> search p s i = Some i.
Proof. intros H. destruct s; simpl in *; now rewrite H. Qed.

Lemma search_next (p : jsstring) (c : N) (t : jsstring) (i : nat) :
  startsWith p (c :: t) = false -> search p (c :: t) i = search p t (S i).
Proof. intros H. cbn [search]. now rewrite H. Qed.

Lemma search_newline (p rest : jsstring) (i : nat) :
  ~ In 10%N p ->
  search newline (p ++ 10%N :: rest) i = Some (i + List.length p)%nat.
Proof.
  revert i. induction p as [|c p IH]; intros i Hno.
  - simpl. f_equal. lia.
  - rewrite <- app_comm_cons, search_next.
    + rewrite IH; [f_equal; simpl; lia|].
      intros Hin. apply Hno. now right.
    + unfold newline. cbn [startsWith].
      destruct (N.eqb_spec 10 c) as [E|_]; [|reflexivity].
      exfalso. apply Hno. left. now symmetry.
Qed.

Lemma startsWith_self (p rest : jsstring) : startsWith p (p ++ rest) = true.
Proof.
  induction p as [|c p IH]; simpl; auto. now rewrite N.eqb_refl, IH.
Qed.

(** [indexOf] from the end of a prefix searches what follows it. *)
Lemma indexOf_app (a b p : jsstring) :
  indexOf (a ++ b) p (Z.of_nat (List.length a))
  = match search p b (List.length a) with
    | Some k => Z.of_nat k
    | None => -1
    end.
Proof.
  unfold indexOf.
  assert (clamp (a ++ b) (Z.of_nat (List.length a)) = List.length a) as ->.
  { unfold clamp, len. rewrite length_app. lia. }
  now rewrite skipn_app, skipn_all, Nat.sub_diag.
Qed.

Lemma slice_app (a p rest : jsstring) :
  slice (a ++ p ++ rest) (Z.of_nat (List.length a))
    (Z.of_nat (List.length a + List.length p)) = p.
Proof.
  unfold slice, relative, len. rewrite !length_app.
  destruct (Z.ltb_spec (Z.of_nat (List.length a)) 0) as [Hneg|_]; [lia|].
  destruct (Z.ltb_spec (Z.of_nat (List.length a + List.length p)) 0)
    as [Hneg|_]; [lia|].
  replace (Z.to_nat (Z.min (Z.of_nat (List.length a)) _))
    with (List.length a) by lia.
  replace (Z.to_nat (Z.max _ 0)) with (List.length p) by lia.
  rewrite skipn_app, skipn_all, Nat.sub_diag. simpl.
  now rewrite firstn_app, firstn_all, Nat.sub_diag, app_nil_r.
Qed.

(** The marker loop over a chunk of frames, from the newline that ends the
    frame before ([lead]) or from the start of the chunk. *)
Lemma scan_frames :
  forall payloads pre lead dataLines,
    (forall p, In p payloads -> ~ In 10%N p) ->
    lead = [] \/ lead = newline ->
    scan_loop (S (List.length payloads)) (pre ++ lead ++ frames payloads)
      (Z.of_nat (List.length pre), dataLines)
    = Some (dataLines ++ List.map trim payloads).
Proof.
  induction payloads as [|p ps IH]; intros pre lead dataLines Hno Hlead.
  - cbn [scan_loop frames flat_map List.length List.map]. unfold scan_body.
    rewrite indexOf_app, !app_nil_r.
    destruct Hlead as [->| ->]; reflexivity.
  - cbn [scan_loop]. unfold scan_body.
    assert (indexOf (pre ++ lead ++ frames (p :: ps)) marker
              (Z.of_nat (List.length pre))
            = Z.of_nat (List.length (pre ++ lead))) as ->.
    { rewrite indexOf_app, length_app. cbn [frames flat_map]. unfold frame.
      rewrite <- !app_assoc.
      destruct Hlead as [->| ->].
      - rewrite app_nil_l, search_here by apply startsWith_self.
        simpl. f_equal. lia.
      - cbn [newline app]. rewrite search_next by reflexivity.
        rewrite search_here by apply startsWith_self.
        simpl. f_equal. lia. }
    destruct (Z.eqb_spec (Z.of_nat (List.length (pre ++ lead))) (-1));
      [lia|].
    assert (pre ++ lead ++ frames (p :: ps)
            = ((pre ++ lead) ++ marker) ++ p ++ newline ++ frames ps) as Hs.
    { cbn [frames flat_map]. unfold frame. now rewrite <- !app_assoc. }
    assert (Z.of_nat (List.length (pre ++ lead)) + 6
            = Z.of_nat (List.length ((pre ++ lead) ++ marker))) as Hpos.
    { rewrite (length_app (pre ++ lead) marker).
      change (List.length marker) with 6%nat. lia. }
    rewrite Hpos, Hs.
    rewrite (indexOf_app ((pre ++ lead) ++ marker)).
    cbn [newline app].
    rewrite search_newline by (apply Hno; now left).
    rewrite slice_app.
    replace (((pre ++ lead) ++ marker) ++ p ++ 10%N :: frames ps)
      with ((((pre ++ lead) ++ marker) ++ p) ++ newline ++ frames ps)
      by (now rewrite <- !app_assoc).
    rewrite <- (length_app ((pre ++ lead) ++ marker) p).
    rewrite IH; [|intros q Hq; apply Hno; now right|now right].
    cbn [List.map]. now rewrite <- app_assoc.
Qed.

Lemma frames_length (payloads : list jsstring) :
  (List.length payloads <= List.length (frames payloads))%nat.
Proof.
  induction payloads as [|p ps IH]; simpl; auto.
  unfold frame. rewrite !length_app. simpl. lia.
Qed.

Lemma extract_frames (payloads : list jsstring) :
  (forall p, In p payloads -> ~ In 10%N p) ->
  extract_lines (frames payloads) = Some (List.map trim payloads).
Proof.
  intros Hno. unfold extract_lines.
  apply Scan.scan_loop_more with (n := S (List.length payloads)).
  - exact (scan_frames payloads [] [] [] Hno (or_introl eq_refl)).
  - pose proof (frames_length payloads). lia.
Qed.

End Frames.

(** X1.  A chunk in which the marker [data: ] does not occur (the empty
    chunk among them) yields no payload, no message, no broadcast and no
    error. *)
Theorem no_marker_no_output
  (JSON_parse : jsstring -> option Json.value)
  (m : RemoteSSESubscribable) (text : jsstring) :
  (forall d, startsWith marker (skipn d text) = false) ->
  extract_lines text = Some []
  /\ _extractFromSSE JSON_parse m text = Some ([], [])
  /\ _onMessage JSON_parse m text = Some [].
Proof.
  intros Hno.
  assert (extract_lines text = Some []) as Hlines.
  { unfold extract_lines. cbn [scan_loop]. unfold scan_body.
    destruct (JSFacts.indexOf_cases text marker 0)
      as [->|(k & _ & _ & Hk)]; [reflexivity|].
    rewrite Hno in Hk. discriminate. }
  split; [exact Hlines|].
  unfold _onMessage, _extractFromSSE. rewrite Hlines. simpl. auto.
Qed.

Lemma no_marker_no_output_witness :
  (forall d, startsWith marker (skipn d (str "data")) = false)
  /\ extract_lines (str "data") = Some []
  /\ _extractFromSSE Json.parse audience (str "data") = Some ([], [])
  /\ _onMessage Json.parse audience (str "data") = Some [].
Proof.
  assert (forall d, startsWith marker (skipn d (str "data")) = false) as Hno
    by (intros [|[|[|[|[|d]]]]]; reflexivity).
  split; [exact Hno|].
  exact (no_marker_no_output Json.parse audience (str "data") Hno).
Defined.

(** X2.  The marker loop of [_extractFromSSE] fails to reach its [break]
    exactly on the chunks in which some [data: ] marker has no newline
    after it; on those no number of passes is enough, and on all others
    [length + 1] passes are. *)
Theorem marker_loop_hangs_iff (text : jsstring) :
  (extract_lines text = None <-> exists d, dangling text d)
  /\ (extract_lines text = None ->
      forall fuel, scan_loop fuel text (0, []) = None)
  /\ (forall fuel dataLines,
        scan_loop fuel text (0, []) = Some dataLines ->
        extract_lines text = Some dataLines).
Proof.
  split; [apply Scan.extract_lines_none|].
  split; [apply Scan.extract_lines_forever|].
  intros fuel dataLines. apply Scan.scan_loop_bounded.
Qed.

(** X3.  On a chunk made of frames, each a marker, a payload without
    newline and a newline, the marker loop ends and extracts the payloads,
    trimmed, in the order of the frames.  A payload may itself contain the
    marker. *)
Theorem frames_round_trip (payloads : list jsstring) :
  (forall p, In p payloads -> ~ In 10%N p) ->
  extract_lines (frames payloads) = Some (List.map trim payloads).
Proof. apply Frames.extract_frames. Qed.

Lemma frames_round_trip_witness :
  (forall p, In p [str " data: x "; payload_a; []] -> ~ In 10%N p)
  /\ extract_lines (frames [str " data: x "; payload_a; []])
     = Some [str "data: x"; payload_a; []].
Proof.
  assert (forall p, In p [str " data: x "; payload_a; []] -> ~ In 10%N p)
    as Hno.
  { intros p [<-|[<-|[<-|[]]]] Hin; vm_compute in Hin;
      repeat (destruct Hin as [Hin|Hin]; [discriminate|]); exact Hin. }
  split; [exact Hno|].
  exact (frames_round_trip [str " data: x "; payload_a; []] Hno).
Defined.

(** X4.  On a chunk made of frames whose trimmed payloads all parse,
    [_onMessage] makes one broadcast per frame, in the order of the frames,
    and nothing else: for each frame in turn every subscriber is invoked
    with the stored record spread with [connected] true and the parsed
    payload as [lastMessage]. *)
Theorem valid_frames_broadcast_in_order
  (JSON_parse : jsstring -> option Json.value)
  (m : RemoteSSESubscribable)
  (payloads : list jsstring) (values : list Json.value) :
  (forall p, In p payloads -> ~ In 10%N p) ->
  Forall2 (fun p v => JSON_parse (trim p) = Some v) payloads values ->
  let state := fun v =>
    {| clientId := clientId (client m);
       connected := true;
       lastMessage := Some v;
       error := error (client m);
       reconnect := reconnect (client m) |} in
  _onMessage JSON_parse m (frames payloads)
  = Some (flat_map
            (fun v => List.map (fun s => ECall s (state v)) (subscribers m))
            values).
Proof.
  intros Hno Hparse state.
  assert (parse_lines JSON_parse (List.map trim payloads) = Some values)
    as Hlines.
  { induction Hparse as [|p v ps vs Hp _ IH]; [reflexivity|].
    cbn [List.map parse_lines]. rewrite Hp, IH; [reflexivity|].
    intros q Hq. apply Hno. now right. }
  unfold _onMessage, _extractFromSSE.
  now rewrite (Frames.extract_frames payloads Hno), Hlines.
Qed.

(* ================================================================= *)
(** ** More on the connection manager *)

Module Broadcasts.
Import Frame.

#[local] Arguments str : simpl never.
#[local] Arguments _notifySubscribers : simpl never.

Lemma in_calls_notify m state s v :
  In (s, v) (calls (_notifySubscribers m state)) -> v = state.
Proof.
  rewrite calls_notify, in_map_iff. intros (x & [= _ <-] & _). reflexivity.
Qed.

Lemma in_calls_disconnect m s v :
  In (s, v) (calls (_disconnect m)) -> Broadcast (client m) v.
Proof.
  unfold _disconnect. destruct (reader m); [|intros []].
  cbn [calls]. intros H. apply in_calls_notify in H. subst. constructor.
Qed.

Lemma in_calls_leave m c thrown s v :
  In (s, v) (calls (leave m c thrown)) -> Broadcast (client m) v.
Proof.
  unfold leave, catch_block, finally_block.
  rewrite !calls_app, calls_resume, app_nil_r, in_app_iff.
  intros [H|H].
  - destruct thrown; [|destruct H]. cbn [calls] in H.
    apply in_calls_notify in H. subst. constructor.
  - apply in_calls_notify in H. subst. constructor.
Qed.

Lemma requests_app (a b : list Effect) :
  requests (a ++ b) = requests a ++ requests b.
Proof.
  induction a as [|e a IH]; simpl; auto.
  destruct e; simpl; rewrite ?IH; reflexivity.
Qed.

Lemma requests_notify m state : requests (_notifySubscribers m state) = [].
Proof.
  unfold _notifySubscribers. induction (subscribers m); simpl; auto.
Qed.

Lemma requests_disconnect m : requests (_disconnect m) = [].
Proof.
  unfold _disconnect. destruct (reader m); simpl; auto using requests_notify.
Qed.

Lemma requests_leave m c thrown : requests (leave m c thrown) = [].
Proof.
  unfold leave, catch_block, finally_block.
  destruct thrown, c; simpl;
    now rewrite ?requests_app, !requests_notify.
Qed.

Section Turns.

Variable JSON_parse : jsstring -> option Json.value.

Lemma in_calls_onMessage m text effects s v :
  _onMessage JSON_parse m text = Some effects ->
  In (s, v) (calls effects) -> Broadcast (client m) v.
Proof.
  unfold _onMessage, _extractFromSSE.
  destruct (extract_lines text) as [dataLines|]; [|discriminate].
  destruct (parse_lines JSON_parse dataLines) as [objs|]; intros [= <-];
    cbn [calls flat_map app]; rewrite ?calls_app, ?flat_notify_calls.
  - rewrite in_flat_map. intros (obj & _ & Hin).
    apply in_map_iff in Hin as (x & [= _ <-] & _). constructor.
  - rewrite app_nil_r. intros H. apply in_calls_notify in H. subst.
    constructor.
Qed.

Lemma requests_onMessage m text effects :
  _onMessage JSON_parse m text = Some effects -> requests effects = [].
Proof.
  unfold _onMessage, _extractFromSSE.
  destruct (extract_lines text) as [dataLines|]; [|discriminate].
  destruct (parse_lines JSON_parse dataLines) as [objs|]; intros [= <-];
    cbn [requests flat_map app]; rewrite ?requests_app, ?requests_notify.
  - induction objs as [|o objs IH]; simpl; auto.
    now rewrite requests_app, requests_notify.
  - reflexivity.
Qed.

(** Every state a turn hands to a callback is spread from the stored
    record, and every request of a turn is for the manager's URL. *)
Lemma step_broadcasts sys i sys' effects :
  step JSON_parse sys i = Some (sys', effects) ->
  (forall s v, In (s, v) (calls effects) ->
               Broadcast (client (manager sys)) v)
  /\ (forall u, In u (requests effects) -> u = url (manager sys)).
Proof.
  unfold step. destruct i as [s0|s0| |k result|k result]; intros H.
  - effects_of H. unfold subscribe, _connect. simpl.
    destruct (reader (manager sys)); simpl; [tauto|].
    destruct (_ <=? _)%nat; simpl; intuition congruence.
  - effects_of H. unfold unsubscribe. cbn [snd].
    destruct (_ =? _)%nat; [|simpl; tauto].
    rewrite requests_disconnect. split; [|intros u []].
    intros s v Hin. apply in_calls_disconnect in Hin. exact Hin.
  - effects_of H. unfold reconnect_closure, _connect.
    destruct (_ <=? _)%nat; cbn [snd];
      rewrite calls_app, requests_app, requests_disconnect; simpl;
      rewrite ?app_nil_r; (split; [|intuition congruence]);
      intros s v Hin; apply in_calls_disconnect in Hin; exact Hin.
  - destruct (nth_error (tasks sys) k) as [[c [|r0]]|];
      try (effects_of H; simpl; tauto).
    destruct result as [[r1|]|message]; effects_of H.
    + simpl. tauto.
    + rewrite requests_leave. split; [|intros u []].
      intros s v Hin. apply in_calls_leave in Hin. exact Hin.
    + rewrite requests_leave. split; [|intros u []].
      intros s v Hin. apply in_calls_leave in Hin. exact Hin.
  - destruct (nth_error (tasks sys) k) as [[c [|r0]]|];
      try (effects_of H; simpl; tauto).
    destruct result as [text| |message].
    + destruct (_onMessage JSON_parse (manager sys) text) as [e|] eqn:E;
        [|effects_of H; rewrite requests_leave; split; [|intros u []];
          intros s v Hin; apply in_calls_leave in Hin; exact Hin].
      unfold next_read in H.
      destruct (reader (manager sys)); effects_of H;
        rewrite calls_app, requests_app, (requests_onMessage _ _ _ E),
          ?requests_leave; (split; [|intros u []]);
        intros s v Hin; apply in_app_iff in Hin as [Hin|Hin];
        try (eapply in_calls_onMessage; eauto; fail).
      * destruct Hin.
      * apply in_calls_leave in Hin. exact Hin.
    + effects_of H. cbn [calls requests]. rewrite requests_leave.
      split; [|intros u []].
      intros s v Hin. apply in_calls_leave in Hin. exact Hin.
    + effects_of H. rewrite requests_leave. split; [|intros u []].
      intros s v Hin. apply in_calls_leave in Hin. exact Hin.
Qed.

Lemma run_broadcasts inputs : forall sys sys' effects,
  run JSON_parse sys inputs = Some (sys', effects) ->
  (forall s v, In (s, v) (calls effects) ->
               Broadcast (client (manager sys)) v)
  /\ (forall u, In u (requests effects) -> u = url (manager sys)).
Proof.
  induction inputs as [|i rest IH]; intros sys sys' effects; simpl.
  - intros [= _ <-]. simpl. tauto.
  - destruct (step JSON_parse sys i) as [[sys1 e1]|] eqn:E; [|discriminate].
    destruct (run JSON_parse sys1 rest) as [[sys2 e2]|] eqn:R; [|discriminate].
    intros [= _ <-].
    destruct (step_broadcasts _ _ _ _ E) as [Hc1 Hr1].
    destruct (IH _ _ _ R) as [Hc2 Hr2].
    destruct (step_same _ _ _ _ _ E) as [Hu Hcl].
    rewrite Hu in Hr2. rewrite Hcl in Hc2.
    rewrite calls_app, requests_app.
    split; intros; rewrite in_app_iff in *; intuition eauto.
Qed.

End Turns.

End Broadcasts.

Section MoreManagerProperties.

Variable JSON_parse : jsstring -> option Json.value.

(** X5.  Every state a manager hands to a callback either is connected,
    carries a message and no error, or is not connected and carries no
    message; all carry the [reconnect] closure of the manager and no
    [clientId]. *)
Theorem broadcast_states_consistent
  (u : jsstring) (inputs : list Input) (sys : System) (log : list Effect)
  (s : Subscriber) (v : SSEClient) :
  run JSON_parse (boot u) inputs = Some (sys, log) ->
  In (s, v) (calls log) ->
  ((connected v = true /\ lastMessage v <> None /\ error v = None)
   \/ (connected v = false /\ lastMessage v = None))
  /\ reconnect v = reconnect_manager
  /\ clientId v = None.
Proof.
  intros Hrun Hin.
  destruct (Broadcasts.run_broadcasts _ _ _ _ _ Hrun) as [Hcalls _].
  destruct (Hcalls s v Hin); simpl; repeat split; auto.
  left. repeat split; auto. discriminate.
Qed.

(** X6.  Every request a manager issues is for the URL it was constructed
    with. *)
Theorem requests_target_bound_url
  (u : jsstring) (inputs : list Input) (sys : System) (log : list Effect)
  (u' : jsstring) :
  run JSON_parse (boot u) inputs = Some (sys, log) ->
  In u' (requests log) -> u' = u.
Proof.
  intros Hrun Hin.
  destruct (Broadcasts.run_broadcasts _ _ _ _ _ Hrun) as [_ Hreq].
  exact (Hreq u' Hin).
Qed.

(** X7.  As long as no response has arrived, the reader field is empty, and
    every call of [subscribe] on a manager with a URL of more than one
    character issues a request of its own and leaves a connection attempt
    of its own behind. *)
Theorem each_early_subscribe_requests (ss : list Subscriber) :
  forall sys,
    reader (manager sys) = None ->
    (1 < List.length (url (manager sys)))%nat ->
    exists sys',
      run JSON_parse sys (List.map call_subscribe ss)
      = Some (sys', List.map (fun _ => EFetch (url (manager sys))) ss)
      /\ tasks sys'
         = tasks sys
           ++ List.map (fun s => mkTask (by_subscribe s) await_fetch) ss
      /\ reader (manager sys') = None.
Proof.
  induction ss as [|s ss IH]; intros sys Hr Hlen.
  - exists sys. simpl. now rewrite app_nil_r.
  - cbn [List.map run step].
    assert (subscribe sys s
            = ({| manager := with_subscribers (manager sys)
                               (set_add s (subscribers (manager sys)));
                  tasks := tasks sys ++ [mkTask (by_subscribe s) await_fetch] |},
               [EFetch (url (manager sys))])) as ->.
    { unfold subscribe, _connect. cbn [reader with_subscribers manager url].
      rewrite Hr. apply Nat.leb_gt in Hlen. rewrite Hlen. reflexivity. }
    destruct (IH {| manager := with_subscribers (manager sys)
                                 (set_add s (subscribers (manager sys)));
                    tasks := tasks sys
                             ++ [mkTask (by_subscribe s) await_fetch] |}
                Hr Hlen) as (sys' & Hrun & Htasks & Hr').
    exists sys'. cbn [manager url with_subscribers tasks] in *.
    rewrite Hrun. split; [reflexivity|]. split; [|exact Hr'].
    rewrite Htasks, <- app_assoc. reflexivity.
Qed.

Lemma chunks_keep_listening (u : jsstring) (s : Subscriber) (r : ReaderId) :
  forall texts,
    forallb (fun t => negb (exits (chunk t))) texts = true ->
    exists log,
      run JSON_parse (listening u s r)
        (List.map (fun t => read_settles 0 (chunk t)) texts)
      = Some (listening u s r, log)
      /\ returns log = [].
Proof.
  induction texts as [|t texts IH]; cbn [List.map run forallb].
  - intros _. exists []. auto.
  - rewrite andb_true_iff, negb_true_iff. intros [Ht Hrest].
    destruct (IH Hrest) as (log & Hrun & Hret).
    unfold step at 1. cbn [tasks listening nth_error manager].
    destruct (_onMessage JSON_parse
                (with_reader (with_subscribers (constructor u) [s]) r) t)
      as [e|] eqn:E.
    + change (next_read (listening u s r) 0 (by_subscribe s))
        with (listening u s r, [ERead r]).
      cbv beta iota zeta. rewrite Hrun. eexists. split; [reflexivity|].
      rewrite !Frame.returns_app, (Frame.onMessage_returns _ _ _ _ E), Hret.
      reflexivity.
    + apply Frame.onMessage_none in E. cbn [exits] in Ht. rewrite E in Ht.
      discriminate.
Qed.

(** X8.  The promise of the [subscribe] call that opened the stream stays
    pending while the stream delivers chunks that do not end the read loop,
    however many: the caller gets its [unsubscribe] closure only when the
    loop is left, be it on the end of the stream, on an exception or on a
    chunk whose marker loop never reaches its [break]. *)
Theorem subscribe_pending_while_streaming
  (u : jsstring) (s : Subscriber) (r : ReaderId) (texts : list jsstring) :
  (1 < List.length u)%nat ->
  forallb (fun t => negb (exits (chunk t))) texts = true ->
  (exists log,
     run JSON_parse (boot u)
       (call_subscribe s :: fetch_settles 0 (response (Some r))
        :: List.map (fun t => read_settles 0 (chunk t)) texts)
     = Some (listening u s r, log)
     /\ returns log = [])
  /\ forall result,
       exits result = true ->
       option_map (fun out => returns (snd out))
         (step JSON_parse (listening u s r) (read_settles 0 result))
       = Some [(s, client (constructor u))].
Proof.
  intros Hlen Hall. split.
  - cbn [run step].
    assert (subscribe (boot u) s
            = ({| manager := with_subscribers (constructor u) [s];
                  tasks := [mkTask (by_subscribe s) await_fetch] |},
               [EFetch u])) as ->.
    { unfold subscribe, _connect.
      cbn [reader with_subscribers manager url boot constructor].
      apply Nat.leb_gt in Hlen. rewrite Hlen. reflexivity. }
    cbn [tasks nth_error manager].
    change (next_read
              {| manager := with_reader (with_subscribers (constructor u) [s]) r;
                 tasks := [mkTask (by_subscribe s) await_fetch] |}
              0 (by_subscribe s))
      with (listening u s r, [ERead r]).
    cbv beta iota zeta.
    destruct (chunks_keep_listening u s r texts Hall) as (log & -> & Hret).
    eexists. split; [reflexivity|]. cbn [returns app]. exact Hret.
  - intros result Hexit. unfold step.
    cbn [tasks listening nth_error manager].
    destruct result as [text| |message]; [|reflexivity|reflexivity].
    destruct (_onMessage JSON_parse
                (with_reader (with_subscribers (constructor u) [s]) r) text)
      as [e|] eqn:E; [|reflexivity].
    exfalso. cbn [exits] in Hexit.
    destruct (extract_lines text) eqn:L; [discriminate|].
    rewrite (proj2 (Frame.onMessage_none JSON_parse _ text) L) in E.
    discriminate.
Qed.

End MoreManagerProperties.

(** X9.  The [unsubscribe] closure of [s], called while another callback is
    subscribed, removes [s] and nothing else: the other callbacks stay, the
    reader is not cancelled and nothing is broadcast. *)
Theorem unsubscribe_with_others_is_silent
  (sys : System) (s s' : Subscriber) :
  In s' (subscribers (manager sys)) ->
  s' <> s ->
  snd (unsubscribe sys s) = []
  /\ ~ In s (subscribers (manager (fst (unsubscribe sys s))))
  /\ (forall x, x <> s ->
        (In x (subscribers (manager (fst (unsubscribe sys s))))
         <-> In x (subscribers (manager sys))))
  /\ reader (manager (fst (unsubscribe sys s))) = reader (manager sys)
  /\ tasks (fst (unsubscribe sys s)) = tasks sys.
Proof.
  intros Hin Hne.
  assert (forall x, In x (set_delete s (subscribers (manager sys)))
                    <-> In x (subscribers (manager sys)) /\ x <> s) as Hdel.
  { intros x. unfold set_delete. rewrite filter_In, negb_true_iff, Nat.eqb_neq.
    intuition congruence. }
  unfold unsubscribe. cbn [fst snd manager subscribers with_subscribers
                           reader tasks].
  split.
  - assert (In s' (set_delete s (subscribers (manager sys)))) as Hs'
      by (apply Hdel; auto).
    destruct (set_delete s (subscribers (manager sys))) as [|x l];
      [destruct Hs'|reflexivity].
  - split; [intros Hs; apply Hdel in Hs; tauto|].
    split; [|split; reflexivity].
    intros x Hx. rewrite Hdel. tauto.
Qed.

Lemma unsubscribe_with_others_is_silent_witness :
  In 1%nat (subscribers (manager {| manager := audience; tasks := [] |}))
  /\ 1%nat <> 0%nat
  /\ unsubscribe {| manager := audience; tasks := [] |} 0%nat
     = ({| manager := with_subscribers audience [1%nat]; tasks := [] |}, []).
Proof.
  split; [right; left; reflexivity|]. split; [discriminate|].
  destruct (unsubscribe_with_others_is_silent
              {| manager := audience; tasks := [] |} 0%nat 1%nat)
    as (Hsilent & _); [right; left; reflexivity|discriminate|].
  unfold unsubscribe in *. cbn [snd] in Hsilent. rewrite Hsilent.
  reflexivity.
Defined.

(** X10.  While a reader is held, every call of an [unsubscribe] closure
    that leaves the set of subscribers empty cancels the reader, also when
    the set was empty already: a closure called again cancels again. *)
Theorem every_emptying_unsubscribe_cancels
  (sys : System) (s : Subscriber) (r : ReaderId) :
  reader (manager sys) = Some r ->
  (forall x, In x (subscribers (manager sys)) -> x = s) ->
  snd (unsubscribe sys s) = [ECancel r]
  /\ subscribers (manager (fst (unsubscribe sys s))) = []
  /\ unsubscribe (fst (unsubscribe sys s)) s
     = (fst (unsubscribe sys s), [ECancel r]).
Proof.
  intros Hr Hall.
  assert (set_delete s (subscribers (manager sys)) = []) as Hdel.
  { unfold set_delete.
    induction (subscribers (manager sys)) as [|x l IH]; [reflexivity|].
    cbn [filter]. rewrite (Hall x (or_introl eq_refl)), Nat.eqb_refl.
    apply IH. intros y Hy. apply Hall. now right. }
  unfold unsubscribe. cbn [fst snd manager subscribers with_subscribers tasks].
  rewrite Hdel. cbn [set_delete filter List.length Nat.eqb].
  unfold _disconnect, _notifySubscribers.
  cbn [reader subscribers with_subscribers List.map]. rewrite Hr.
  repeat split.
Qed.

Lemma every_emptying_unsubscribe_cancels_witness :
  reader (manager streaming) = Some 7%nat
  /\ (forall x, In x (subscribers (manager streaming)) -> x = 0%nat)
  /\ snd (unsubscribe streaming 0%nat) = [ECancel 7%nat]
  /\ subscribers (manager (fst (unsubscribe streaming 0%nat))) = []
  /\ unsubscribe (fst (unsubscribe streaming 0%nat)) 0%nat
     = (fst (unsubscribe streaming 0%nat), [ECancel 7%nat]).
Proof.
  assert (forall x, In x (subscribers (manager streaming)) -> x = 0%nat)
    as Hall by (intros x [<-|[]]; reflexivity).
  split; [reflexivity|]. split; [exact Hall|].
  exact (every_emptying_unsubscribe_cancels streaming 0%nat 7%nat
           eq_refl Hall).
Defined.

Section FailureProperties.

Variable JSON_parse : jsstring -> option Json.value.

(** X11.  When the request of a connection attempt is rejected, or its
    response has no body, every subscriber is told twice: first a state
    with the error message and [connected] false, then at once a state
    without error.  No reader is stored by that turn, and the attempt is
    over. *)
Theorem failed_connection_broadcasts
  (u : jsstring) (inputs : list Input) (sys : System) (log : list Effect)
  (k : nat) (c : Caller) (result : FetchResult) (message : jsstring) :
  run JSON_parse (boot u) inputs = Some (sys, log) ->
  nth_error (tasks sys) k = Some (mkTask c await_fetch) ->
  failure_message result = Some message ->
  let failure :=
    with_connected (with_error (client (manager sys)) (Some message)) false in
  let final := with_connected (client (manager sys)) false in
  (exists effects,
     step JSON_parse sys (fetch_settles k result)
     = Some ({| manager := manager sys; tasks := remove_nth k (tasks sys) |},
             effects)
     /\ calls effects
        = List.map (fun s => (s, failure)) (subscribers (manager sys))
          ++ List.map (fun s => (s, final)) (subscribers (manager sys))
     /\ requests effects = [])
  /\ error failure = Some message
  /\ connected failure = false
  /\ error final = None
  /\ connected final = false.
Proof.
  intros Hrun Htask Hfail failure final. subst failure final.
  split; [|rewrite (Frame.run_client _ _ _ _ _ Hrun); repeat split].
  unfold step. rewrite Htask.
  destruct result as [[r|]|msg]; [discriminate| |];
    injection Hfail as <-; eexists; (split; [reflexivity|]);
    rewrite Broadcasts.requests_leave; (split; [|reflexivity]);
    unfold leave, catch_block, finally_block; cbn [calls app];
    rewrite !Frame.calls_app, !Frame.calls_notify, Frame.calls_resume,
      app_nil_r; reflexivity.
Qed.

(** X12.  A manager bound to a URL of at most one character does nothing
    but resolve the promises of [subscribe]: whatever is done to it, every
    turn completes, no request is issued, no callback is invoked, no reader
    is obtained and no connection attempt is left behind. *)
Theorem short_url_manager_is_inert (u : jsstring) (inputs : list Input) :
  (List.length u <= 1)%nat ->
  exists sys log,
    run JSON_parse (boot u) inputs = Some (sys, log)
    /\ forallb is_return log = true
    /\ tasks sys = []
    /\ reader (manager sys) = None.
Proof.
  intros Hlen.
  assert (forall sys,
            tasks sys = [] -> reader (manager sys) = None ->
            url (manager sys) = u ->
            exists sys' log,
              run JSON_parse sys inputs = Some (sys', log)
              /\ forallb is_return log = true
              /\ tasks sys' = [] /\ reader (manager sys') = None) as Hgen.
  { apply Nat.leb_le in Hlen.
    induction inputs as [|i rest IH]; intros sys Ht Hr Hu.
    - exists sys, []. auto.
    - assert (exists sys1 e1,
                step JSON_parse sys i = Some (sys1, e1)
                /\ forallb is_return e1 = true
                /\ tasks sys1 = [] /\ reader (manager sys1) = None
                /\ url (manager sys1) = u) as (sys1 & e1 & Hs & He & H1).
      { unfold step. destruct i as [s|s| |k result|k result].
        - unfold subscribe, _connect.
          cbn [reader with_subscribers manager url]. rewrite Hr, Hu, Hlen.
          do 2 eexists. split; [reflexivity|]. simpl. auto.
        - unfold unsubscribe, _disconnect.
          cbn [reader with_subscribers]. rewrite Hr.
          do 2 eexists. split; [reflexivity|].
          destruct (_ =? _)%nat; simpl; auto.
        - unfold reconnect_closure, _connect, _disconnect.
          rewrite Hr, Hu, Hlen.
          do 2 eexists. split; [reflexivity|]. simpl. auto.
        - rewrite Ht. destruct k; simpl; do 2 eexists; eauto.
        - rewrite Ht. destruct k; simpl; do 2 eexists; eauto. }
      destruct H1 as (Ht1 & Hr1 & Hu1).
      destruct (IH sys1 Ht1 Hr1 Hu1) as (sys2 & e2 & Hrun & He2 & H2).
      exists sys2, (e1 ++ e2). cbn [run]. rewrite Hs, Hrun.
      split; [reflexivity|]. rewrite forallb_app, He, He2. auto. }
  apply Hgen; reflexivity.
Qed.

(** X13.  A chunk in which some [data: ] marker has no newline after it
    ends the read loop that receives it: nothing of the chunk is broadcast,
    the exception that ends its marker loop is caught by [_connect], every
    subscriber is told the error and then a state without error, and the
    loop is left (a [subscribe] that awaited it resolves). *)
Theorem dangling_chunk_ends_loop
  (sys : System) (k : nat) (c : Caller) (r : ReaderId) (text : jsstring) :
  nth_error (tasks sys) k = Some (mkTask c (await_read r)) ->
  (exists d, dangling text d) ->
  let m := manager sys in
  step JSON_parse sys (read_settles k (chunk text))
  = Some ({| manager := m; tasks := remove_nth k (tasks sys) |},
          EConsoleError (str "Error connecting to SSE:")
          :: List.map
               (fun s =>
                  ECall s (with_connected
                             (with_error (client m) (Some array_overflow))
                             false))
               (subscribers m)
          ++ List.map (fun s => ECall s (with_connected (client m) false))
               (subscribers m)
          ++ resume c m).
Proof.
  intros Htask Hd m. unfold step. rewrite Htask.
  apply Scan.extract_lines_none in Hd.
  apply (Frame.onMessage_none JSON_parse m) in Hd. fold m. rewrite Hd.
  reflexivity.
Qed.

End FailureProperties.

(** X15.  Whatever calls the holder has received, the instance it holds, if
    any, is bound to a non-empty URL and was made before the next one will
    be; and [useStatefulSubscribableSSE] answers [undefined] exactly when
    the holder is empty and the URL is missing or empty. *)
Theorem holder_never_binds_empty_url
  (cs : list HolderCall) (u : option jsstring) :
  let h := holder_run cs fresh_holder in
  (forall made, statefulSubscribable h = Some made ->
                bound_url made <> [] /\ (ref made < allocated h)%nat)
  /\ (snd (useStatefulSubscribableSSE u h) = None
      <-> statefulSubscribable h = None /\ (u = None \/ u = Some [])).
Proof.
  assert (forall h,
            (forall made, statefulSubscribable h = Some made ->
                          bound_url made <> [] /\ (ref made < allocated h)%nat) ->
            forall made, statefulSubscribable (holder_run cs h) = Some made ->
                         bound_url made <> []
                         /\ (ref made < allocated (holder_run cs h))%nat)
    as Hinv.
  { induction cs as [|[v|] cs IH]; intros h Hh; cbn [holder_run]; auto.
    - apply IH. unfold useStatefulSubscribableSSE.
      destruct (statefulSubscribable h) as [held|] eqn:E.
      + cbn [fst]. rewrite E. exact Hh.
      + destruct v as [[|c t]|]; cbn [fst]; try (rewrite E; exact Hh).
        cbn [statefulSubscribable allocated]. intros made [= <-].
        cbn [bound_url ref]. split; [discriminate|lia].
    - apply IH. cbn [destroyStatefulSubscribableSSE fst statefulSubscribable].
      discriminate. }
  intros h. split.
  - apply Hinv. discriminate.
  - unfold useStatefulSubscribableSSE.
    destruct (statefulSubscribable h) as [held|].
    + cbn [snd]. split; [discriminate|intros [? _]; discriminate].
    + destruct u as [[|c t]|]; cbn [snd]; split; auto; try discriminate.
      intros [_ [H|H]]; discriminate.
Qed.

(* ================================================================= *)
(** ** The text decoder polyfill *)

Module PolyfillFacts.
Import Polyfill.

Lemma option_map_app_cons (c : N) (text : jsstring) (o : option jsstring) :
  option_map (cons c) (option_map (app text) o)
  = option_map (app (c :: text)) o.
Proof. destruct o; reflexivity. Qed.

Lemma option_map_app_app (a text : jsstring) (o : option jsstring) :
  option_map (app a) (option_map (app text) o)
  = option_map (app (a ++ text)) o.
Proof. destruct o; simpl; [now rewrite app_assoc|reflexivity]. Qed.

Ltac split_option H :=
  match type of H with
  | option_map _ ?o = Some _ =>
      let text := fresh "text" in
      let E := fresh "E" in
      destruct o as [text|] eqn:E; [|discriminate H];
      cbn [option_map] in H; injection H as H; subst
  end.

(** Percent-decoding goes through a concatenation, when the first part
    decodes. *)
Lemma decode_app_fuel :
  forall n s, (List.length s <= n)%nat ->
  forall t text,
    decodeURIComponent s = Some text ->
    decodeURIComponent (s ++ t) = option_map (app text) (decodeURIComponent t).
Proof.
  induction n as [|n IH]; intros s Hlen t text H.
  - destruct s; [|simpl in Hlen; lia]. injection H as <-.
    simpl. now destruct (decodeURIComponent t).
  - destruct s as [|c s]; [injection H as <-; simpl;
                           now destruct (decodeURIComponent t)|].
    cbn [decodeURIComponent app] in *.
    destruct (negb (c =? 37)%N).
    { split_option H. rewrite (IH s) with (text := text0) by (simpl in *; lia || auto).
      apply option_map_app_cons. }
    destruct s as [|a0 [|c0 r0]]; try discriminate. cbn [app].
    destruct (hex_octet a0 c0) as [b0|]; [|discriminate].
    destruct (leading_ones b0) as [|[|[|[|[|k]]]]]; try discriminate.
    + split_option H.
      rewrite (IH r0) with (text := text0) by (simpl in *; lia || auto).
      apply option_map_app_cons.
    + destruct r0 as [|p1 [|a1 [|c1 r1]]]; try discriminate. cbn [app].
      destruct (if (p1 =? 37)%N then hex_octet a1 c1 else None) as [b1|];
        [|discriminate].
      destruct (utf8_2 b0 b1) as [v|]; [|discriminate].
      split_option H.
      rewrite (IH r1) with (text := text0) by (simpl in *; lia || auto).
      apply option_map_app_app.
    + destruct r0 as [|p1 [|a1 [|c1 [|p2 [|a2 [|c2 r2]]]]]]; try discriminate.
      cbn [app].
      destruct (if (p1 =? 37)%N then hex_octet a1 c1 else None) as [b1|];
        [|discriminate].
      destruct (if (p2 =? 37)%N then hex_octet a2 c2 else None) as [b2|];
        [|discriminate].
      destruct (utf8_3 b0 b1 b2) as [v|]; [|discriminate].
      split_option H.
      rewrite (IH r2) with (text := text0) by (simpl in *; lia || auto).
      apply option_map_app_app.
    + destruct r0
        as [|p1 [|a1 [|c1 [|p2 [|a2 [|c2 [|p3 [|a3 [|c3 r3]]]]]]]]];
        try discriminate.
      cbn [app].
      destruct (if (p1 =? 37)%N then hex_octet a1 c1 else None) as [b1|];
        [|discriminate].
      destruct (if (p2 =? 37)%N then hex_octet a2 c2 else None) as [b2|];
        [|discriminate].
      destruct (if (p3 =? 37)%N then hex_octet a3 c3 else None) as [b3|];
        [|discriminate].
      destruct (utf8_4 b0 b1 b2 b3) as [v|]; [|discriminate].
      split_option H.
      rewrite (IH r3) with (text := text0) by (simpl in *; lia || auto).
      apply option_map_app_app.
Qed.

Lemma decode_app (s t text : jsstring) :
  decodeURIComponent s = Some text ->
  decodeURIComponent (s ++ t) = option_map (app text) (decodeURIComponent t).
Proof. apply (decode_app_fuel (List.length s)). lia. Qed.

Lemma escape_app (a b : list N) :
  escape (fromCharCode (Uint8Array (a ++ b)))
  = escape (fromCharCode (Uint8Array a))
    ++ escape (fromCharCode (Uint8Array b)).
Proof.
  unfold escape, fromCharCode, Uint8Array.
  now rewrite !map_app, flat_map_app.
Qed.

(** A property checked on every number below [k] holds of them all. *)
Lemma checked_below (k : nat) (P : N -> bool) :
  forallb P (List.map N.of_nat (seq 0 k)) = true ->
  forall b, (b < N.of_nat k)%N -> P b = true.
Proof.
  intros Hall b Hb. rewrite forallb_forall in Hall. apply Hall.
  apply in_map_iff. exists (N.to_nat b). split; [apply N2Nat.id|].
  apply in_seq. lia.
Qed.

Lemma ascii_units : forall b, (b < 128)%N -> ascii_unit_ok b = true.
Proof.
  intros b Hb. apply (checked_below 128); [vm_compute; reflexivity|exact Hb].
Qed.

Lemma lone_units : forall b, (b < 256)%N -> lone_unit_fails b = true.
Proof.
  intros b Hb. apply (checked_below 256); [vm_compute; reflexivity|exact Hb].
Qed.

Lemma short_units : forall v, (v < 2048)%N -> short_ok v = true.
Proof.
  intros v Hv. apply (checked_below 2048); [vm_compute; reflexivity|exact Hv].
Qed.

Lemma decode_ascii (bytes : list N) :
  Forall (fun b => (b < 128)%N) bytes ->
  decodeURIComponent (escape (fromCharCode (Uint8Array bytes))) = Some bytes.
Proof.
  induction 1 as [|b bytes Hb _ IH]; [reflexivity|].
  change (b :: bytes) with ([b] ++ bytes) at 1. rewrite escape_app.
  pose proof (ascii_units b Hb) as Hok. unfold ascii_unit_ok in Hok.
  apply N.ltb_lt in Hb. rewrite Hb in Hok. cbn [negb orb] in Hok.
  assert (escape (fromCharCode (Uint8Array [b]))
          = escape_unit ((b mod 256) mod 65536)) as ->
    by (unfold escape, fromCharCode, Uint8Array; cbn [List.map flat_map];
        apply app_nil_r).
  destruct (decodeURIComponent (escape_unit ((b mod 256) mod 65536)))
    as [[|c [|c' l]]|] eqn:E; try discriminate.
  apply N.eqb_eq in Hok. subst c.
  rewrite (decode_app _ _ _ E), IH. reflexivity.
Qed.

End PolyfillFacts.

(** X16.  A polyfill made for [utf-8] decodes ASCII bytes, as many as the
    engine takes as arguments, to the same code units, whatever the bytes
    (the percent sign and the control characters among them). *)
Theorem polyfill_decodes_ascii (limit : nat) (bytes : list N) :
  Forall (fun b => (b < 128)%N) bytes ->
  (List.length bytes <= limit)%nat ->
  Polyfill.decode_within limit (str "utf-8") bytes = inl bytes.
Proof.
  intros Hall Hlen. unfold Polyfill.decode_within, Polyfill.decode.
  change (Polyfill.same (str "utf-8") (str "utf-8")) with true. cbv iota.
  apply Nat.ltb_ge in Hlen. rewrite Hlen.
  now rewrite (PolyfillFacts.decode_ascii bytes Hall).
Qed.

(** X17.  Decoding goes chunk by chunk on character boundaries, within the
    engine's limit: when two chunks of bytes each decode, their
    concatenation decodes to the concatenation of the texts if it is no
    longer than the engine takes arguments, and throws a [RangeError]
    otherwise. *)
Theorem polyfill_decodes_chunkwise
  (limit : nat) (a b : list N) (ta tb : jsstring) :
  Polyfill.decode_within limit (str "utf-8") a = inl ta ->
  Polyfill.decode_within limit (str "utf-8") b = inl tb ->
  ((List.length (a ++ b) <= limit)%nat ->
   Polyfill.decode_within limit (str "utf-8") (a ++ b) = inl (ta ++ tb))
  /\ ((limit < List.length (a ++ b))%nat ->
      Polyfill.decode_within limit (str "utf-8") (a ++ b)
      = inr Polyfill.RangeError).
Proof.
  unfold Polyfill.decode_within, Polyfill.decode.
  change (Polyfill.same (str "utf-8") (str "utf-8")) with true. cbv iota.
  destruct (limit <? List.length a)%nat; [discriminate|].
  destruct (limit <? List.length b)%nat; [discriminate|].
  rewrite PolyfillFacts.escape_app.
  destruct (Polyfill.decodeURIComponent
              (Polyfill.escape
                 (Polyfill.fromCharCode (Polyfill.Uint8Array a))))
    as [xa|] eqn:Ea; [|discriminate].
  destruct (Polyfill.decodeURIComponent
              (Polyfill.escape
                 (Polyfill.fromCharCode (Polyfill.Uint8Array b))))
    as [xb|] eqn:Eb; [|discriminate].
  intros [= <-] [= <-]. split; intros Hlen.
  - apply Nat.ltb_ge in Hlen. rewrite Hlen.
    now rewrite (PolyfillFacts.decode_app _ _ _ Ea), Eb.
  - apply Nat.ltb_lt in Hlen. now rewrite Hlen.
Qed.

(** X18.  A chunk of bytes that ends inside a character makes the polyfill
    throw a [URIError], even when everything before decodes: this is any
    chunk that decodes followed by one byte that is not ASCII. *)
Theorem polyfill_throws_on_split_character
  (bytes : list N) (text : jsstring) (b : N) :
  Polyfill.decode (str "utf-8") bytes = inl text ->
  (128 <= b < 256)%N ->
  Polyfill.decode (str "utf-8") (bytes ++ [b]) = inr Polyfill.URIError.
Proof.
  unfold Polyfill.decode.
  change (Polyfill.same (str "utf-8") (str "utf-8")) with true. cbv iota.
  rewrite PolyfillFacts.escape_app.
  destruct (Polyfill.decodeURIComponent
              (Polyfill.escape
                 (Polyfill.fromCharCode (Polyfill.Uint8Array bytes))))
    as [x|] eqn:E; [|discriminate].
  intros _ [Hlo Hhi]. rewrite (PolyfillFacts.decode_app _ _ _ E).
  pose proof (PolyfillFacts.lone_units b Hhi) as Hfail.
  unfold Polyfill.lone_unit_fails in Hfail.
  assert ((b <? 128)%N = false) as Hb by (apply N.ltb_ge; exact Hlo).
  rewrite Hb in Hfail. cbn [orb] in Hfail.
  assert (Polyfill.escape (Polyfill.fromCharCode (Polyfill.Uint8Array [b]))
          = Polyfill.escape_unit ((b mod 256) mod 65536)) as ->
    by (unfold Polyfill.escape, Polyfill.fromCharCode, Polyfill.Uint8Array;
        cbn [List.map flat_map]; apply app_nil_r).
  destruct (Polyfill.decodeURIComponent
              (Polyfill.escape_unit ((b mod 256) mod 65536)));
    [discriminate|].
  reflexivity.
Qed.

(** X19.  The UTF-8 form of a code point below U+0800, one byte or two,
    decodes to that code point. *)
Theorem polyfill_decodes_two_byte_forms (v : N) :
  (v < 2048)%N ->
  Polyfill.decode (str "utf-8") (Polyfill.utf8_short v) = inl [v].
Proof.
  intros Hv. unfold Polyfill.decode.
  change (Polyfill.same (str "utf-8") (str "utf-8")) with true. cbv iota.
  pose proof (PolyfillFacts.short_units v Hv) as Hok.
  unfold Polyfill.short_ok in Hok.
  destruct (Polyfill.decodeURIComponent
              (Polyfill.escape
                 (Polyfill.fromCharCode
                    (Polyfill.Uint8Array (Polyfill.utf8_short v)))))
    as [[|c [|c' l]]|]; try discriminate.
  apply N.eqb_eq in Hok. now subst c.
Qed.

(* ================================================================= *)
(** ** The authenticated fetch *)

Module AuthFetchFacts.
Import AuthFetch.

Lemma key_eqb_eq (a b : jsstring) : key_eqb a b = true <-> a = b.
Proof.
  revert b. induction a as [|x a IH]; intros [|y b]; simpl;
    try (split; [discriminate|discriminate]); [tauto|].
  rewrite andb_true_iff, N.eqb_eq, IH. split; [intros [-> ->]|intros [= -> ->]];
    auto.
Qed.

Lemma key_eqb_trans_false (k k' x : jsstring) :
  key_eqb k x = true -> key_eqb k' x = false -> key_eqb k' k = false.
Proof.
  intros H1 H2. apply key_eqb_eq in H1. subst x. exact H2.
Qed.

Lemma get_set (o : Obj) (k : jsstring) (v : Value) (k' : jsstring) :
  get (set o k v) k' = if key_eqb k' k then Some v else get o k'.
Proof.
  induction o as [|[x w] o IH]; simpl.
  - reflexivity.
  - destruct (key_eqb k x) eqn:E; simpl.
    + apply key_eqb_eq in E. subst x. now destruct (key_eqb k' k).
    + rewrite IH. destruct (key_eqb k' x) eqn:E'; [|reflexivity].
      apply key_eqb_eq in E'. subst x.
      destruct (key_eqb k' k) eqn:E''; [|reflexivity].
      apply key_eqb_eq in E''. subst k'.
      assert (key_eqb k k = true) by now apply key_eqb_eq. congruence.
Qed.

(** The properties of [{ ...target, ...source }], for a [source] without
    repeated keys. *)
Lemma get_spread (source : Obj) :
  NoDup (List.map fst source) ->
  forall target k,
    get (spread target source) k
    = match get source k with
      | Some v => Some v
      | None => get target k
      end.
Proof.
  unfold spread. induction source as [|[x w] source IH]; intros Hnd target k.
  - reflexivity.
  - inversion Hnd as [|? ? Hnotin Hnd']; subst. cbn [fold_left fst snd get].
    rewrite IH by exact Hnd'. rewrite get_set.
    destruct (key_eqb k x) eqn:E; [|reflexivity].
    apply key_eqb_eq in E. subst x.
    destruct (get source k) as [v|] eqn:G; [|reflexivity].
    exfalso. apply Hnotin. clear - G.
    induction source as [|[y u] source IH]; [discriminate|].
    simpl in *. destruct (key_eqb k y) eqn:E.
    + apply key_eqb_eq in E. now left.
    + right. now apply IH.
Qed.

End AuthFetchFacts.

(** X20.  When the caller gives its headers as a plain object, the request
    [fetchWithAuth] hands to [fetch] carries every header of the caller
    unchanged, and the two default headers ([Authorization] with the bearer
    token and [Content-Type]) where the caller gave none of that name; the
    other properties of the caller's [init] are passed on. *)
Theorem caller_headers_override_defaults
  (fetch : jsstring -> AuthFetch.RequestInit
           -> AuthFetch.Settled AuthFetch.Response)
  (token input : jsstring) (init : AuthFetch.RequestInit)
  (h : AuthFetch.Obj) :
  AuthFetch.headers init = Some (AuthFetch.plain_object h) ->
  NoDup (List.map fst h) ->
  NoDup (List.map fst (AuthFetch.others init)) ->
  exists request rest,
    fst (AuthFetch.fetchWithAuth (AuthFetch.resolved token) fetch input
           (Some init))
    = AuthFetch.fetch_called input request :: rest
    /\ (exists merged,
          AuthFetch.headers request = Some (AuthFetch.plain_object merged)
          /\ forall k,
               AuthFetch.get merged k
               = match AuthFetch.get h k with
                 | Some v => Some v
                 | None => AuthFetch.get (AuthFetch.defaultHeaders token) k
                 end)
    /\ forall k, AuthFetch.get (AuthFetch.others request) k
                 = AuthFetch.get (AuthFetch.others init) k.
Proof.
  intros Hh Hnd Hnd'.
  exists (AuthFetch.mergedInit token (Some init)).
  assert (exists rest,
            fst (AuthFetch.fetchWithAuth (AuthFetch.resolved token) fetch
                   input (Some init))
            = AuthFetch.fetch_called input
                (AuthFetch.mergedInit token (Some init)) :: rest)
    as [rest Hrest].
  { unfold AuthFetch.fetchWithAuth.
    destruct (fetch input (AuthFetch.mergedInit token (Some init)))
      as [response|e]; [destruct (AuthFetch.ok response)|]; eexists;
      reflexivity. }
  exists rest. split; [exact Hrest|]. split.
  - exists (AuthFetch.mergedHeaders token (Some init)).
    split; [reflexivity|]. intros k.
    unfold AuthFetch.mergedHeaders, AuthFetch.incoming. rewrite Hh.
    cbn [AuthFetch.own_properties].
    rewrite (AuthFetchFacts.get_spread h Hnd).
    destruct (AuthFetch.get h k); reflexivity.
  - intros k. cbn [AuthFetch.mergedInit AuthFetch.others].
    rewrite (AuthFetchFacts.get_spread _ Hnd').
    now destruct (AuthFetch.get (AuthFetch.others init) k).
Qed.

Lemma caller_headers_override_defaults_witness :
  AuthFetch.headers AuthFetch.test_init
  = Some (AuthFetch.plain_object
            [(str "Custom-Header", AuthFetch.text (str "custom-value"))])
  /\ NoDup (List.map fst
              [(str "Custom-Header", AuthFetch.text (str "custom-value"))])
  /\ NoDup (List.map fst (AuthFetch.others AuthFetch.test_init))
  /\ exists request rest,
       fst (AuthFetch.fetchWithAuth
              (AuthFetch.resolved (str "mocked_token"))
              (fun _ _ => AuthFetch.resolved
                            {| AuthFetch.ok := true;
                               AuthFetch.json := AuthFetch.resolved object_a |})
              AuthFetch.test_input (Some AuthFetch.test_init))
       = AuthFetch.fetch_called AuthFetch.test_input request :: rest
       /\ (exists merged,
             AuthFetch.headers request = Some (AuthFetch.plain_object merged)
             /\ forall k,
                  AuthFetch.get merged k
                  = match AuthFetch.get
                            [(str "Custom-Header",
                              AuthFetch.text (str "custom-value"))] k with
                    | Some v => Some v
                    | None =>
                        AuthFetch.get
                          (AuthFetch.defaultHeaders (str "mocked_token")) k
                    end)
       /\ forall k, AuthFetch.get (AuthFetch.others request) k
                    = AuthFetch.get (AuthFetch.others AuthFetch.test_init) k.
Proof.
  assert (NoDup (List.map fst
                   [(str "Custom-Header", AuthFetch.text (str "custom-value"))]))
    as H1 by (repeat constructor; intros []).
  assert (NoDup (List.map fst (AuthFetch.others AuthFetch.test_init)))
    as H2 by (repeat constructor; intros []).
  split; [reflexivity|]. split; [exact H1|]. split; [exact H2|].
  exact (caller_headers_override_defaults _ (str "mocked_token")
           AuthFetch.test_input AuthFetch.test_init _ eq_refl H1 H2).
Defined.

(** The request of the repository's test, as [fetch] receives it. *)
Example test_request :
  AuthFetch.mergedInit (str "mocked_token") (Some AuthFetch.test_init)
  = {| AuthFetch.headers :=
         Some (AuthFetch.plain_object
                 [(str "Authorization",
                   AuthFetch.text (str "Bearer mocked_token"));
                  (str "Content-Type",
                   AuthFetch.text (str "application/json"));
                  (str "Custom-Header",
                   AuthFetch.text (str "custom-value"))]);
       AuthFetch.others := [(str "method", AuthFetch.text (str "GET"))] |}.
Proof. vm_compute. reflexivity. Qed.



(** X21.  The promise of [fetchWithAuth] resolves in one case only: the
    token was obtained, [fetch] resolved to a response whose [ok] flag is
    set, and [json()] of that response resolved; it then resolves to that
    value.  The body of a response that is not [ok] is never read, and
    without a token no request is made. *)
Theorem fetch_resolves_iff
  (sessionToken_get : AuthFetch.Settled jsstring)
  (fetch : jsstring -> AuthFetch.RequestInit
           -> AuthFetch.Settled AuthFetch.Response)
  (input : jsstring) (init : option AuthFetch.RequestInit) :
  let out := AuthFetch.fetchWithAuth sessionToken_get fetch input init in
  (forall v,
     snd out = AuthFetch.resolved v
     <-> exists token response,
           sessionToken_get = AuthFetch.resolved token
           /\ fetch input (AuthFetch.mergedInit token init)
              = AuthFetch.resolved response
           /\ AuthFetch.ok response = true
           /\ AuthFetch.json response = AuthFetch.resolved v)
  /\ (In AuthFetch.json_called (fst out) ->
      exists token response,
        sessionToken_get = AuthFetch.resolved token
        /\ fetch input (AuthFetch.mergedInit token init)
           = AuthFetch.resolved response
        /\ AuthFetch.ok response = true)
  /\ (forall e, sessionToken_get = AuthFetch.rejected e ->
                out = ([], AuthFetch.rejected e))
  /\ (forall token response,
        sessionToken_get = AuthFetch.resolved token ->
        fetch input (AuthFetch.mergedInit token init)
        = AuthFetch.resolved response ->
        AuthFetch.ok response = false ->
        snd out = AuthFetch.rejected (str "Network response was not ok")).
Proof.
  intros out. subst out. unfold AuthFetch.fetchWithAuth.
  destruct sessionToken_get as [token|e0].
  - destruct (fetch input (AuthFetch.mergedInit token init))
      as [response|e1] eqn:F.
    + destruct (AuthFetch.ok response) eqn:Hok; cbn [fst snd].
      * split; [|split; [|split]].
        -- intros v. split.
           ++ intros Hv. exists token, response. auto.
           ++ intros (t & r & [= <-] & Hf & _ & Hj).
              rewrite F in Hf. injection Hf as <-. exact Hj.
        -- intros _. exists token, response. auto.
        -- discriminate.
        -- intros t r [= <-] Hf Hno. rewrite F in Hf. injection Hf as <-.
           congruence.
      * split; [|split; [|split]].
        -- intros v. split; [discriminate|].
           intros (t & r & [= <-] & Hf & Hyes & _).
           rewrite F in Hf. injection Hf as <-. congruence.
        -- intros [H|[]]. discriminate.
        -- discriminate.
        -- reflexivity.
    + cbn [fst snd]. split; [|split; [|split]].
      * intros v. split; [discriminate|].
        intros (t & r & [= <-] & Hf & _). rewrite F in Hf. discriminate.
      * intros [H|[]]. discriminate.
      * discriminate.
      * intros t r [= <-] Hf. rewrite F in Hf. discriminate.
  - cbn [fst snd]. split; [|split; [|split]].
    + intros v. split; [discriminate|].
      intros (t & r & H & _). discriminate.
    + intros [].
    + intros e [= <-]. reflexivity.
    + discriminate.
Qed.

(* ================================================================= *)
(** ** The properties above on sample data *)

Lemma valid_frames_broadcast_in_order_witness :
  (forall p, In p [payload_a; str " [1, 2] "] -> ~ In 10%N p)
  /\ Forall2 (fun p v => Json.parse (trim p) = Some v)
       [payload_a; str " [1, 2] "]
       [object_a; Json.Array [Json.Number (str "1"); Json.Number (str "2")]]
  /\ let state := fun v =>
       {| clientId := None;
          connected := true;
          lastMessage := Some v;
          error := None;
          reconnect := reconnect_manager |} in
     let list_12 :=
       Json.Array [Json.Number (str "1"); Json.Number (str "2")] in
     _onMessage Json.parse audience (frames [payload_a; str " [1, 2] "])
     = Some [ECall 0%nat (state object_a); ECall 1%nat (state object_a);
             ECall 0%nat (state list_12); ECall 1%nat (state list_12)].
Proof.
  assert (forall p, In p [payload_a; str " [1, 2] "] -> ~ In 10%N p) as Hno.
  { intros p [<-|[<-|[]]] Hin; vm_compute in Hin;
      repeat (destruct Hin as [Hin|Hin]; [discriminate|]); exact Hin. }
  assert (Forall2 (fun p v => Json.parse (trim p) = Some v)
            [payload_a; str " [1, 2] "]
            [object_a;
             Json.Array [Json.Number (str "1"); Json.Number (str "2")]])
    as Hparse by (repeat constructor; vm_compute; reflexivity).
  split; [exact Hno|]. split; [exact Hparse|].
  exact (valid_frames_broadcast_in_order Json.parse audience _ _ Hno Hparse).
Defined.

Lemma broadcast_states_consistent_witness :
  (exists sys log,
     run Json.parse (boot some_url) closed_session = Some (sys, log)
     /\ In (0%nat, message_state (constructor some_url) (Json.Number (str "1")))
          (calls log))
  /\ let v := message_state (constructor some_url) (Json.Number (str "1")) in
     ((connected v = true /\ lastMessage v <> None /\ error v = None)
      \/ (connected v = false /\ lastMessage v = None))
     /\ reconnect v = reconnect_manager
     /\ clientId v = None.
Proof.
  assert (exists sys log,
            run Json.parse (boot some_url) closed_session = Some (sys, log)
            /\ In (0%nat, message_state (constructor some_url)
                            (Json.Number (str "1"))) (calls log))
    as Hrun.
  { do 2 eexists. split; [vm_compute; reflexivity|]. left. reflexivity. }
  split; [exact Hrun|].
  destruct Hrun as (sys & log & Hrun & Hin).
  exact (broadcast_states_consistent Json.parse some_url closed_session
           sys log 0%nat _ Hrun Hin).
Defined.

Lemma requests_target_bound_url_witness :
  (exists sys log,
     run Json.parse (boot some_url) reconnected_session = Some (sys, log)
     /\ requests log = [some_url; some_url])
  /\ some_url = some_url.
Proof.
  assert (exists sys log,
            run Json.parse (boot some_url) reconnected_session
            = Some (sys, log)
            /\ requests log = [some_url; some_url]) as Hrun
    by (do 2 eexists; split; vm_compute; reflexivity).
  split; [exact Hrun|].
  destruct Hrun as (sys & log & Hrun & Hreq).
  apply (requests_target_bound_url Json.parse some_url reconnected_session
           sys log some_url Hrun).
  rewrite Hreq. left. reflexivity.
Defined.

Lemma each_early_subscribe_requests_witness :
  reader (manager (boot some_url)) = None
  /\ (1 < List.length (url (manager (boot some_url))))%nat
  /\ exists sys',
       run Json.parse (boot some_url)
         (List.map call_subscribe [0%nat; 1%nat; 0%nat])
       = Some (sys', List.map (fun _ => EFetch (url (manager (boot some_url))))
                       [0%nat; 1%nat; 0%nat])
       /\ tasks sys'
          = tasks (boot some_url)
            ++ List.map (fun s => mkTask (by_subscribe s) await_fetch)
                 [0%nat; 1%nat; 0%nat]
       /\ reader (manager sys') = None.
Proof.
  split; [reflexivity|]. split; [vm_compute; lia|].
  apply (each_early_subscribe_requests Json.parse [0%nat; 1%nat; 0%nat]
           (boot some_url)); [reflexivity|vm_compute; lia].
Defined.

Lemma subscribe_pending_while_streaming_witness :
  (1 < List.length some_url)%nat
  /\ forallb (fun t => negb (exits (chunk t))) [two_frames; one_bad_frame]
     = true
  /\ (exists log,
        run Json.parse (boot some_url)
          (call_subscribe 0%nat :: fetch_settles 0 (response (Some 7%nat))
           :: List.map (fun t => read_settles 0 (chunk t))
                [two_frames; one_bad_frame])
        = Some (listening some_url 0%nat 7%nat, log)
        /\ returns log = [])
  /\ forall result,
       exits result = true ->
       option_map (fun out => returns (snd out))
         (step Json.parse (listening some_url 0%nat 7%nat)
            (read_settles 0 result))
       = Some [(0%nat, client (constructor some_url))].
Proof.
  split; [vm_compute; lia|]. split; [vm_compute; reflexivity|].
  apply (subscribe_pending_while_streaming Json.parse some_url 0%nat 7%nat
           [two_frames; one_bad_frame]);
    [vm_compute; lia|vm_compute; reflexivity].
Defined.

Lemma dangling_chunk_ends_loop_witness :
  nth_error (tasks streaming) 0
  = Some (mkTask (by_subscribe 0%nat) (await_read 7%nat))
  /\ (exists d, dangling dangling_frame d)
  /\ step Json.parse streaming (read_settles 0 (chunk dangling_frame))
     = Some ({| manager := manager streaming; tasks := [] |},
             [EConsoleError (str "Error connecting to SSE:");
              ECall 0%nat
                (with_connected
                   (with_error (client (manager streaming))
                      (Some array_overflow)) false);
              ECall 0%nat (with_connected (client (manager streaming)) false);
              EReturn 0%nat (client (manager streaming))]).
Proof.
  assert (exists d, dangling dangling_frame d) as Hd
    by (apply Scan.extract_lines_none; vm_compute; reflexivity).
  split; [reflexivity|]. split; [exact Hd|].
  exact (dangling_chunk_ends_loop Json.parse streaming 0 (by_subscribe 0%nat)
           7%nat dangling_frame eq_refl Hd).
Defined.

Lemma failed_connection_broadcasts_witness :
  exists sys log,
    run Json.parse (boot some_url) [call_subscribe 0%nat] = Some (sys, log)
    /\ nth_error (tasks sys) 0 = Some (mkTask (by_subscribe 0%nat) await_fetch)
    /\ failure_message (fetch_rejects (str "Failed to fetch"))
       = Some (str "Failed to fetch")
    /\ let failure :=
         with_connected
           (with_error (client (manager sys)) (Some (str "Failed to fetch")))
           false in
       let final := with_connected (client (manager sys)) false in
       (exists effects,
          step Json.parse sys
            (fetch_settles 0 (fetch_rejects (str "Failed to fetch")))
          = Some ({| manager := manager sys;
                     tasks := remove_nth 0 (tasks sys) |}, effects)
          /\ calls effects
             = List.map (fun s => (s, failure)) (subscribers (manager sys))
               ++ List.map (fun s => (s, final)) (subscribers (manager sys))
          /\ requests effects = [])
       /\ error failure = Some (str "Failed to fetch")
       /\ connected failure = false
       /\ error final = None
       /\ connected final = false.
Proof.
  do 2 eexists. split; [vm_compute; reflexivity|].
  split; [reflexivity|]. split; [reflexivity|].
  eapply (failed_connection_broadcasts Json.parse some_url
            [call_subscribe 0%nat] _ _ 0 (by_subscribe 0%nat)
            (fetch_rejects (str "Failed to fetch")) (str "Failed to fetch"));
    [vm_compute; reflexivity|reflexivity|reflexivity].
Defined.

Lemma short_url_manager_is_inert_witness :
  (List.length (str "x") <= 1)%nat
  /\ exists sys log,
       run Json.parse (boot (str "x")) idle_calls = Some (sys, log)
       /\ forallb is_return log = true
       /\ tasks sys = []
       /\ reader (manager sys) = None.
Proof.
  split; [vm_compute; lia|].
  apply (short_url_manager_is_inert Json.parse (str "x") idle_calls).
  vm_compute; lia.
Defined.

Lemma polyfill_decodes_ascii_witness :
  Forall (fun b => (b < 128)%N) (str "data: {}%")
  /\ (List.length (str "data: {}%") <= 9)%nat
  /\ Polyfill.decode_within 9 (str "utf-8") (str "data: {}%")
     = inl (str "data: {}%").
Proof.
  assert (Forall (fun b => (b < 128)%N) (str "data: {}%")) as Hall
    by (repeat constructor).
  split; [exact Hall|]. split; [vm_compute; lia|].
  apply (polyfill_decodes_ascii 9 _ Hall). vm_compute; lia.
Defined.

Lemma polyfill_decodes_chunkwise_witness :
  Polyfill.decode_within 4 (str "utf-8") [195%N; 169%N] = inl [233%N]
  /\ Polyfill.decode_within 4 (str "utf-8") [226%N; 130%N; 172%N]
     = inl [8364%N]
  /\ (4 < List.length ([195%N; 169%N] ++ [226%N; 130%N; 172%N]))%nat
  /\ Polyfill.decode_within 4 (str "utf-8")
       ([195%N; 169%N] ++ [226%N; 130%N; 172%N])
     = inr Polyfill.RangeError
  /\ Polyfill.decode_within 5 (str "utf-8")
       ([195%N; 169%N] ++ [226%N; 130%N; 172%N])
     = inl ([233%N] ++ [8364%N]).
Proof.
  split; [vm_compute; reflexivity|]. split; [vm_compute; reflexivity|].
  split; [vm_compute; lia|]. split.
  - apply (polyfill_decodes_chunkwise 4 [195%N; 169%N] [226%N; 130%N; 172%N]
             [233%N] [8364%N]); vm_compute; (reflexivity || lia).
  - apply (polyfill_decodes_chunkwise 5 [195%N; 169%N] [226%N; 130%N; 172%N]
             [233%N] [8364%N]); vm_compute; (reflexivity || lia).
Defined.

Lemma polyfill_throws_on_split_character_witness :
  Polyfill.decode (str "utf-8") (str "data: ") = inl (str "data: ")
  /\ (128 <= 195 < 256)%N
  /\ Polyfill.decode (str "utf-8") (str "data: " ++ [195%N])
     = inr Polyfill.URIError.
Proof.
  split; [vm_compute; reflexivity|]. split; [lia|].
  apply (polyfill_throws_on_split_character (str "data: ") (str "data: "));
    [vm_compute; reflexivity|lia].
Defined.

Lemma polyfill_decodes_two_byte_forms_witness :
  (233 < 2048)%N
  /\ Polyfill.utf8_short 233 = [195%N; 169%N]
  /\ Polyfill.decode (str "utf-8") (Polyfill.utf8_short 233) = inl [233%N].
Proof.
  split; [lia|]. split; [reflexivity|].
  apply polyfill_decodes_two_byte_forms. lia.
Defined.

(** X22.  A read loop does not keep the reader it started with: after a
    chunk that does not end it, its next [read()] goes to the reader the
    manager holds at that moment.  In a manager run from its construction
    there always is one, so such a chunk never ends the loop. *)
Theorem loop_follows_current_reader
  (JSON_parse : jsstring -> option Json.value)
  (u : jsstring) (inputs : list Input) (sys : System) (log : list Effect)
  (k : nat) (c : Caller) (r : ReaderId) (text : jsstring) :
  run JSON_parse (boot u) inputs = Some (sys, log) ->
  nth_error (tasks sys) k = Some (mkTask c (await_read r)) ->
  exits (chunk text) = false ->
  exists r' before,
    reader (manager sys) = Some r'
    /\ step JSON_parse sys (read_settles k (chunk text))
       = Some ({| manager := manager sys;
                  tasks := replace_nth k (mkTask c (await_read r'))
                             (tasks sys) |},
               before ++ [ERead r']).
Proof.
  intros Hrun Htask Hstay.
  assert (loops_have_reader sys) as Inv.
  { eapply Frame.run_loops; [|exact Hrun]. intros c' r' []. }
  pose proof (Inv c r (nth_error_In _ _ Htask)) as Hr.
  destruct (reader (manager sys)) as [r'|] eqn:E; [|congruence].
  unfold step. rewrite Htask.
  destruct (_onMessage JSON_parse (manager sys) text) as [before|] eqn:M.
  - unfold next_read. rewrite E. exists r', before. split; reflexivity.
  - apply Frame.onMessage_none in M. cbn [exits] in Hstay.
    rewrite M in Hstay. discriminate.
Qed.

Lemma loop_follows_current_reader_witness :
  exists sys log,
    run Json.parse (boot some_url) reconnected_session = Some (sys, log)
    /\ nth_error (tasks sys) 0
       = Some (mkTask (by_subscribe 0%nat) (await_read 7%nat))
    /\ exits (chunk two_frames) = false
    /\ exists r' before,
         reader (manager sys) = Some r'
         /\ step Json.parse sys (read_settles 0 (chunk two_frames))
            = Some ({| manager := manager sys;
                       tasks := replace_nth 0
                                  (mkTask (by_subscribe 0%nat) (await_read r'))
                                  (tasks sys) |},
                    before ++ [ERead r']).
Proof.
  do 2 eexists. split; [vm_compute; reflexivity|].
  split; [reflexivity|]. split; [vm_compute; reflexivity|].
  eapply (loop_follows_current_reader Json.parse some_url
            reconnected_session _ _ 0 (by_subscribe 0%nat) 7%nat two_frames);
    [vm_compute; reflexivity|reflexivity|vm_compute; reflexivity].
Defined.
